(** * RiskGuard: the risk-enforcement state machine

    Shallow embedding of
    - [RiskguardV1.1/limits/limits.py] ([enforce_aggregate_risk], [_save_state],
      [risk_block_status]),
    - [RiskGuardv0.0.2/limits/limits_watch.py] (the observation loop [main]),
    - [RiskGuardv0.0.2/news/news_windows0.1.py] and [news_windows0.2.py]
      ([map_symbol_currencies], [find_events], [enforce_news_window],
      [auto_update_calendar] as called from [run_daemon]).

    Timestamps are UTC seconds ([Z]); risk percentages are rationals ([Q]).
    One tick reads the clock once: all [_now_utc()] calls of a tick see the
    same [now]. *)

From Stdlib Require Import ZArith QArith List String Ascii Bool Lia.
From Stdlib Require Import Sorting.Sorted.
Import ListNotations.
Open Scope Z_scope.

(* ------------------------------------------------------------------ *)
(** ** Kill switch *)

(** Modelled from the spec: [limits/kill_switch.py] ([set_kill_until],
    [kill_status]) is not part of the sources. §4.2: the state is
    [until : option timestamp]; [status] reports [active] iff [until] is
    present and strictly later than now, together with the stored [until];
    [arm_until t] keeps the later of the stored value and [t]. *)
Module KillSwitch.

Definition kill_active (now : Z) (until : option Z) : bool :=
  match until with
  | Some u => now <? u
  | None => false
  end.

Definition set_kill_until (until : option Z) (t : Z) : option Z :=
  match until with
  | None => Some t
  | Some u => if u <? t then Some t else Some u
  end.

End KillSwitch.
Import KillSwitch.

(* ------------------------------------------------------------------ *)
(** ** Snapshots and persisted enforcement state *)

(** A position as returned in [snap["positions"]]. *)
Record Position := mkPosition {
  p_ticket : Z;
  p_symbol : string;
  p_type : Z;
  p_volume : Q;
  p_open_time : option Z
}.

Record Snapshot := mkSnapshot {
  total_risk_pct : Q;
  positions : list Position
}.

(** [reader.snapshot()] either returns or raises. *)
Inductive snap_result :=
| SnapOk (s : Snapshot)
| SnapRaise.

(** The dictionary of [.riskguard_limits.json], after [_load_state]; absent
    keys read as the defaults of [st.get]: [[]], [0], [None], [False]. *)
Record EnfState := mkEnfState {
  baseline_tickets : list Z;
  block_attempts : Z;
  last_attempt_at : option Z;
  risk_block_active : bool
}.

Definition empty_state : EnfState := mkEnfState [] 0 None false.

(** Everything persisted between ticks: the limits state file and the
    kill-switch record. *)
Record World := mkWorld {
  w_state : EnfState;
  w_kill : option Z
}.

(** What one tick observes from its collaborators: the clock, the snapshot,
    the outcome of [close_position_full] per ticket, and whether
    [set_kill_until] raises. *)
Record Tick := mkTick {
  tk_now : Z;
  tk_snap : snap_result;
  tk_close_ok : Z -> bool;
  tk_arm_raises : bool
}.

Record Report := mkReport {
  r_baseline_tickets : list Z;
  new_tickets_detected : list Z;
  closed : list Z;
  failed : list Z;
  attempts_before : Z;
  attempts_after : Z;
  risk_block_active_before : bool;
  risk_block_active_after : bool;
  kill_switch_active_before : bool;
  kill_switch_active_after : bool;
  kill_switch_until_before : option Z;
  kill_switch_until_after : option Z;
  kill_switch_armed_now : bool
}.

Inductive outcome :=
| Raised
| Returned (w : World) (r : Report).

(* ------------------------------------------------------------------ *)
(** ** Helpers standing for Python built-ins *)

Fixpoint insert_sorted (x : Z) (l : list Z) : list Z :=
  match l with
  | [] => [x]
  | y :: r => if x <=? y then x :: y :: r else y :: insert_sorted x r
  end.

(** [sorted(...)] *)
Definition sorted (l : list Z) : list Z := fold_right insert_sorted [] l.

Definition memZ (x : Z) (l : list Z) : bool := existsb (Z.eqb x) l.

(** [{int(p["ticket"]) for p in snap["positions"]}] as a duplicate-free list. *)
Definition ticket_set (ps : list Position) : list Z :=
  nodup Z.eq_dec (map p_ticket ps).

(** [1e-9] *)
Definition eps : Q := 1 # 1000000000.

(** [max(1, int(block_minutes)) * 60] *)
Definition block_seconds (block_minutes : Z) : Z := Z.max 1 block_minutes * 60.

(* ------------------------------------------------------------------ *)
(** ** [enforce_aggregate_risk] *)

Section Enforce.
Variable threshold_pct : Q.
Variable max_block_attempts : Z.
Variable block_minutes : Z.

(** Lines 144-159: close every position of the snapshot whose ticket is new;
    each result is recorded independently. Returns [(closed, failed)]. *)
Fixpoint close_new (close_ok : Z -> bool) (new_tickets : list Z)
    (ps : list Position) : list Z * list Z :=
  match ps with
  | [] => ([], [])
  | pos :: rest =>
      let '(c, f) := close_new close_ok new_tickets rest in
      let t := p_ticket pos in
      if memZ t new_tickets then
        if close_ok t then (t :: c, f) else (c, t :: f)
      else (c, f)
  end.

Definition enforce_aggregate_risk (tk : Tick) (w : World) : outcome :=
  match tk_snap tk with
  | SnapRaise => Raised
  | SnapOk snap =>
    let now := tk_now tk in
    let total := total_risk_pct snap in
    let tickets_current := ticket_set (positions snap) in
    let st := w_state w in
    let baseline := baseline_tickets st in
    let attempts := block_attempts st in
    let last_attempt := last_attempt_at st in
    let ks := w_kill w in
    let kill_active_before := kill_active now ks in
    let kill_until_before := ks in
    let risk_block := risk_block_active st || kill_active_before in
    (* lines 83-88: stale-attempt decay *)
    let '(attempts, st) :=
      match last_attempt with
      | Some la =>
          if (0 <? attempts) && (block_seconds block_minutes <=? now - la)
          then (0, mkEnfState (baseline_tickets st) 0 None (risk_block_active st))
          else (attempts, st)
      | None => (attempts, st)
      end in
    let report0 := mkReport baseline [] [] [] attempts attempts
                     risk_block risk_block kill_active_before kill_active_before
                     kill_until_before kill_until_before false in
    match baseline with
    | [] =>
      (* lines 111-120: first run *)
      let st' := mkEnfState (sorted tickets_current) attempts
                   (last_attempt_at st) risk_block in
      Returned (mkWorld st' ks)
        (mkReport (sorted tickets_current) [] [] [] attempts attempts
           risk_block risk_block kill_active_before kill_active_before
           kill_until_before kill_until_before false)
    | _ :: _ =>
      if Qle_bool total (threshold_pct + eps) then
        (* lines 122-137 *)
        let '(attempts, last, risk_block') :=
          if risk_block && negb kill_active_before
          then (0, None, false)
          else (attempts, last_attempt_at st, risk_block) in
        let st' := mkEnfState (sorted tickets_current) attempts last risk_block' in
        Returned (mkWorld st' ks)
          (mkReport (sorted tickets_current) [] [] [] (attempts_before report0)
             attempts risk_block risk_block' kill_active_before kill_active_before
             kill_until_before kill_until_before false)
      else
        (* lines 139-198 *)
        let new_tickets := filter (fun t => negb (memZ t baseline)) tickets_current in
        let '(cl, fl) := close_new (tk_close_ok tk) new_tickets (positions snap) in
        let '(attempts', last) :=
          match new_tickets with
          | [] => (attempts, last_attempt_at st)
          | _ :: _ => (attempts + Z.of_nat (List.length new_tickets), Some now)
          end in
        (* lines 169-181 *)
        let '(risk_block1, ks1, armed_now, ks_active_after, ks_until_after) :=
          if max_block_attempts <=? attempts' then
            if negb kill_active_before then
              let until := now + block_seconds block_minutes in
              if tk_arm_raises tk then (true, ks, false, false, None)
              else
                let ks' := set_kill_until ks until in
                (true, ks', true, kill_active now ks', ks')
            else (true, ks, false, kill_active_before, kill_until_before)
          else (risk_block, ks, false, kill_active_before, kill_until_before) in
        (* lines 184-187: not armed now, report the observed status *)
        let '(ks_active_after, ks_until_after) :=
          if armed_now then (ks_active_after, ks_until_after)
          else (kill_active now ks1, ks1) in
        (* lines 190-191 *)
        let risk_block2 := risk_block1 || ks_active_after in
        let st' := mkEnfState baseline attempts' last risk_block2 in
        Returned (mkWorld st' ks1)
          (mkReport baseline new_tickets cl fl (attempts_before report0) attempts'
             risk_block risk_block2 kill_active_before ks_active_after
             kill_until_before ks_until_after armed_now)
    end
  end.

(** The world after a tick: a raising tick persists nothing. *)
Definition step_world (tk : Tick) (w : World) : World :=
  match enforce_aggregate_risk tk w with
  | Raised => w
  | Returned w' _ => w'
  end.

(** Successive ticks: the final world and the reports of the ticks that
    returned. *)
Fixpoint run (ticks : list Tick) (w : World) : World * list Report :=
  match ticks with
  | [] => (w, [])
  | tk :: rest =>
      match enforce_aggregate_risk tk w with
      | Raised => run rest w
      | Returned w' r => let '(wf, rs) := run rest w' in (wf, r :: rs)
      end
  end.

End Enforce.

(** [risk_block_status()] (lines 200-210), queried at [now]. *)
Record BlockStatus := mkBlockStatus {
  s_risk_block_active : bool;
  s_block_attempts : Z;
  s_baseline_tickets : list Z;
  s_kill_switch_active : bool;
  s_kill_switch_until : option Z
}.

Definition risk_block_status (now : Z) (w : World) : BlockStatus :=
  let st := w_state w in
  let ks := w_kill w in
  mkBlockStatus (risk_block_active st || kill_active now ks) (block_attempts st)
    (baseline_tickets st) (kill_active now ks) ks.

(* ------------------------------------------------------------------ *)
(** ** The observation loop of [limits_watch.py] *)

(** [main] runs [enforce_aggregate_risk] in a [while True] loop whose only
    handler is [except KeyboardInterrupt]: any other exception leaves the
    loop (after [finally: r.shutdown()]). The list of ticks bounds the
    otherwise endless loop. *)
Inductive watch_result :=
| WatchTerminated (w : World) (unprocessed : list Tick)
| WatchAlive (w : World).

Fixpoint limits_watch (thr : Q) (max_attempts block_minutes : Z)
    (ticks : list Tick) (w : World) : watch_result :=
  match ticks with
  | [] => WatchAlive w
  | tk :: rest =>
      match enforce_aggregate_risk thr max_attempts block_minutes tk w with
      | Raised => WatchTerminated w rest
      | Returned w' _ => limits_watch thr max_attempts block_minutes rest w'
      end
  end.

(* ------------------------------------------------------------------ *)
(** ** [_save_state]: in-place rewrite of the state file *)

(** The file-system operations of
    [with open(STATE_FILE, "w") as f: json.dump(d, f, indent=2)]:
    opening with mode ["w"] truncates the file, then the encoder's output
    reaches the file piece by piece. A crash may stop the sequence after any
    prefix. *)
Inductive fs_op :=
| FTruncate
| FWrite (chunk : string).

Definition apply_op (file : string) (op : fs_op) : string :=
  match op with
  | FTruncate => EmptyString
  | FWrite c => (file ++ c)%string
  end.

Definition digit_char (d : Z) : ascii := ascii_of_nat (48 + Z.to_nat d).

Fixpoint pos_digits (fuel : nat) (n : Z) (acc : string) : string :=
  match fuel with
  | O => acc
  | S f =>
      let acc' := String (digit_char (n mod 10)) acc in
      if n <? 10 then acc' else pos_digits f (n / 10) acc'
  end.

(** [str(n)] for an integer. *)
Definition Z_to_string (n : Z) : string :=
  if n <? 0 then String "-" (pos_digits 64 (- n) EmptyString)
  else pos_digits 64 n EmptyString.

Definition nl_indent (k : nat) : string :=
  String (ascii_of_nat 10) (String.concat EmptyString (repeat " "%string k)).

(** Python's JSON values as [json.load] returns them and [json.dump]
    accepts them: [None], [bool], [int], [float] (as the text its encoder
    writes), [str], [list], and [dict] with its items in insertion order. *)
#[warnings="-register-all"]
Inductive json :=
| JNull
| JBool (b : bool)
| JInt (n : Z)
| JFloat (repr : string)
| JStr (s : string)
| JList (l : list json)
| JDict (items : list (string * json)).

Definition dquote : ascii := ascii_of_nat 34.
Definition bslash : ascii := ascii_of_nat 92.

Definition hex_digit (d : nat) : ascii :=
  if (d <? 10)%nat then ascii_of_nat (48 + d) else ascii_of_nat (87 + d).

(** [ESCAPE_DCT] of [json.encoder]: backslash, double quote and the control
    characters below [0x20]; every other character (with
    [ensure_ascii=False], also non-ASCII text) is written as it is. *)
Definition escape_char (c : ascii) : string :=
  let n := nat_of_ascii c in
  if (n =? 92)%nat then String bslash (String bslash EmptyString)
  else if (n =? 34)%nat then String bslash (String dquote EmptyString)
  else if (n =? 8)%nat then String bslash "b"%string
  else if (n =? 12)%nat then String bslash "f"%string
  else if (n =? 10)%nat then String bslash "n"%string
  else if (n =? 13)%nat then String bslash "r"%string
  else if (n =? 9)%nat then String bslash "t"%string
  else if (n <? 32)%nat then
    String bslash ("u00"%string ++ String (hex_digit (n / 16)) (String (hex_digit (n mod 16)) EmptyString))
  else String c EmptyString.

Fixpoint escape (s : string) : string :=
  match s with
  | EmptyString => EmptyString
  | String c r => (escape_char c ++ escape r)%string
  end.

(** [encode_basestring] *)
Definition encode_basestring (s : string) : string :=
  String dquote (escape s ++ String dquote EmptyString).

(** The values [_iterencode_list] and [_iterencode_dict] write in a single
    piece. *)
Definition scalar (v : json) : option string :=
  match v with
  | JNull => Some "null"%string
  | JBool true => Some "true"%string
  | JBool false => Some "false"%string
  | JInt n => Some (Z_to_string n)
  | JFloat r => Some r
  | JStr s => Some (encode_basestring s)
  | JList _ | JDict _ => None
  end.

(** The pieces yielded by [_iterencode(o, lvl)] of [json.encoder] with
    [indent=2] (so separators [","] and [": "]), in order: [json.dump]
    writes each of them with its own [fp.write]. *)
Fixpoint iterencode (lvl : nat) (v : json) {struct v} : list string :=
  match v with
  | JList l =>
      match l with
      | [] => ["[]"%string]
      | _ :: _ =>
          let ni := nl_indent (2 * S lvl) in
          (fix items (first : bool) (l : list json) : list string :=
             match l with
             | [] => []
             | x :: r =>
                 let buf := if first then ("[" ++ ni)%string else ("," ++ ni)%string in
                 match scalar x with
                 | Some s => (buf ++ s)%string :: items false r
                 | None => buf :: iterencode (S lvl) x ++ items false r
                 end
             end) true l ++ [nl_indent (2 * lvl); "]"%string]
      end
  | JDict kv =>
      match kv with
      | [] => ["{}"%string]
      | _ :: _ =>
          let ni := nl_indent (2 * S lvl) in
          "{"%string :: ni ::
          (fix items (first : bool) (kv : list (string * json)) : list string :=
             match kv with
             | [] => []
             | (k, x) :: r =>
                 (if first then [] else [("," ++ ni)%string]) ++
                 [encode_basestring k; ": "%string] ++
                 match scalar x with
                 | Some s => [s]
                 | None => iterencode (S lvl) x
                 end ++ items false r
             end) true kv ++ [nl_indent (2 * lvl); "}"%string]
      end
  | _ => match scalar v with Some s => [s] | None => [] end
  end.

(** [json.dump(d, f, ensure_ascii=False, indent=2)] of the dictionary [d]. *)
Definition json_dump_chunks (d : list (string * json)) : list string :=
  iterencode 0 (JDict d).

Definition save_state_ops (d : list (string * json)) : list fs_op :=
  FTruncate :: map FWrite (json_dump_chunks d).

(** The file after the first [k] operations of a save, starting from [file]. *)
Definition crash_after (k : nat) (ops : list fs_op) (file : string) : string :=
  fold_left apply_op (firstn k ops) file.

(* ------------------------------------------------------------------ *)
(** ** Event-window enforcer ([news_windows0.1.py], [news_windows0.2.py]) *)

Module News.

(** A row of the calendar frame: currency and [ts_utc]. *)
Record Event := mkEvent {
  ev_currency : string;
  ev_ts : Z
}.

Definition ascii_upper (c : ascii) : ascii :=
  let n := nat_of_ascii c in
  if (97 <=? n)%nat && (n <=? 122)%nat then ascii_of_nat (n - 32) else c.

(** [str.upper] on ASCII text. *)
Fixpoint str_upper (s : string) : string :=
  match s with
  | EmptyString => EmptyString
  | String c r => String (ascii_upper c) (str_upper r)
  end.

Definition ascii_alpha (c : ascii) : bool :=
  let n := nat_of_ascii c in
  ((65 <=? n)%nat && (n <=? 90)%nat) || ((97 <=? n)%nat && (n <=? 122)%nat).

(** [str.isalpha] on ASCII text: non-empty and all letters. *)
Definition str_isalpha (s : string) : bool :=
  match s with
  | EmptyString => false
  | _ => forallb ascii_alpha (list_ascii_of_string s)
  end.

(** [s[-3:]] *)
Definition last3 (s : string) : string :=
  if (String.length s <? 3)%nat then s
  else substring (String.length s - 3) 3 s.

Definition map_symbol_currencies (symbol : string) : list string :=
  let s := str_upper symbol in
  if (6 <=? String.length s)%nat && str_isalpha (substring 0 3 s)
     && str_isalpha (substring 3 3 s)
  then [substring 0 3 s; substring 3 3 s]
  else [last3 s].

Definition find_events (df : list Event) (currencies : list string) (now : Z)
    (window_min : Z) : list Event :=
  let lo := now - window_min * 60 in
  let hi := now + window_min * 60 in
  filter (fun r => existsb (String.eqb (ev_currency r)) currencies
                   && (lo <=? ev_ts r) && (ev_ts r <=? hi)) df.

(** [max(m["ts_utc"] for m in matches)] on a non-empty list. *)
Definition max_ts (m0 : Event) (ms : list Event) : Z :=
  fold_left (fun a m => Z.max a (ev_ts m)) ms (ev_ts m0).

(** [close_position_full] returns [(True, _)], returns [(False, _)] or raises. *)
Inductive close_outcome := CloseOk | CloseFailed | CloseRaises.

(** Externally visible actions, in the order they are issued. *)
Inductive effect :=
| EAutoTradingOn
| EClose (ticket : Z)
| EArm (until : Z)
| ENotify.

(** One tick of the enforcer: the clock, the snapshot, the outcome of
    [close_position_full] per ticket, and per ticket whether the calls of
    [news_windows0.1.py] to [ensure_autotrading_on] and to [set_kill_until]
    for that position raise. *)
Record NTick := mkNTickFull {
  n_now : Z;
  n_snap : snap_result;
  n_close : Z -> close_outcome;
  n_on_raises : Z -> bool;
  n_arm_raises : Z -> bool
}.

(** A tick on which [ensure_autotrading_on] and [set_kill_until] return. *)
Definition mkNTick (now : Z) (snap : snap_result) (close : Z -> close_outcome) : NTick :=
  mkNTickFull now snap close (fun _ => false) (fun _ => false).

(** The loop's accumulator: the report lists, [max_until], the effects
    issued, the kill-switch record and [report["kill_switch_until"]]. *)
Record NAcc := mkNAcc {
  a_affected : list (Z * string * list Event);
  a_closed : list Z;
  a_failed : list Z;
  a_max_until : option Z;
  a_effects : list effect;
  a_kill : option Z;
  a_until_field : option Z
}.

Record NOut := mkNOut {
  o_affected : list (Z * string * list Event);
  o_closed : list Z;
  o_failed : list Z;
  o_kill_switch_until : option Z;
  o_effects : list effect;
  o_kill : option Z
}.

Definition acc0 (ks : option Z) : NAcc := mkNAcc [] [] [] None [] ks None.

Definition recent_seconds (window_min : Z) (recent_s : option Z) : Z :=
  match recent_s with
  | None => window_min * 60
  | Some r => r
  end.

Section Window.
Variable events_df : list Event.
Variable window_min : Z.
Variable now : Z.
Variable recent_s : Z.
Variable close : Z -> close_outcome.
Variable on_raises : Z -> bool.
Variable arm_raises : Z -> bool.

(** The positions the loop body goes on to close: non-empty symbol, an
    [open_time], opened at most [recent_s] seconds ago, and matching events.
    Returns the matches. *)
Definition pos_matches (pos : Position) : list Event :=
  if String.eqb (p_symbol pos) EmptyString then []
  else match p_open_time pos with
       | None => []
       | Some ot =>
           if recent_s <? now - ot then []
           else find_events events_df (map_symbol_currencies (p_symbol pos))
                  now window_min
       end.

(** Body of the [for pos in positions] loop of [news_windows0.2.py]
    (lines 136-216). *)
Definition news_pos_v2 (acc : NAcc) (pos : Position) : NAcc :=
  match pos_matches pos with
  | [] => acc
  | m0 :: ms =>
      let ticket := p_ticket pos in
      let eff := a_effects acc ++ [EClose ticket] in
      let '(cl, fl, ok) :=
        match close ticket with
        | CloseOk => (a_closed acc ++ [ticket], a_failed acc, true)
        | CloseFailed => (a_closed acc, a_failed acc ++ [ticket], true)
        | CloseRaises => (a_closed acc, a_failed acc, false)
        end in
      if negb ok then
        mkNAcc (a_affected acc) cl fl (a_max_until acc) eff (a_kill acc)
          (a_until_field acc)
      else
        let this_until := max_ts m0 ms + window_min * 60 in
        let max_until :=
          match a_max_until acc with
          | None => Some this_until
          | Some mu => if mu <? this_until then Some this_until else Some mu
          end in
        mkNAcc (a_affected acc ++ [(ticket, p_symbol pos, m0 :: ms)]) cl fl
          max_until eff (a_kill acc) (a_until_field acc)
  end.

(** Body of the loop of [news_windows0.1.py] (lines 123-173): AutoTrading is
    forced on before the close, and the kill switch is armed inside the
    loop, once per affected position. All of it runs inside the loop's
    [try ... except Exception: continue]: a raising [ensure_autotrading_on]
    skips the close; a raising [set_kill_until] (line 163) comes after the
    close was recorded in [closed] or [failed] and after
    [report["kill_switch_until"]] was set (line 162), and skips the
    [affected] entry, leaving the kill-switch record as it was. *)
Definition news_pos_v1 (acc : NAcc) (pos : Position) : NAcc :=
  match pos_matches pos with
  | [] => acc
  | m0 :: ms =>
      let ticket := p_ticket pos in
      if on_raises ticket then
        mkNAcc (a_affected acc) (a_closed acc) (a_failed acc) (a_max_until acc)
          (a_effects acc ++ [EAutoTradingOn]) (a_kill acc) (a_until_field acc)
      else
      let eff := a_effects acc ++ [EAutoTradingOn; EClose ticket] in
      let '(cl, fl, ok) :=
        match close ticket with
        | CloseOk => (a_closed acc ++ [ticket], a_failed acc, true)
        | CloseFailed => (a_closed acc, a_failed acc ++ [ticket], true)
        | CloseRaises => (a_closed acc, a_failed acc, false)
        end in
      if negb ok then
        mkNAcc (a_affected acc) cl fl (a_max_until acc) eff (a_kill acc)
          (a_until_field acc)
      else
        let until := max_ts m0 ms + window_min * 60 in
        if arm_raises ticket then
          mkNAcc (a_affected acc) cl fl (a_max_until acc) (eff ++ [EArm until])
            (a_kill acc) (Some until)
        else
          mkNAcc (a_affected acc ++ [(ticket, p_symbol pos, m0 :: ms)]) cl fl
            (a_max_until acc) (eff ++ [EArm until])
            (set_kill_until (a_kill acc) until) (Some until)
  end.

End Window.

Definition empty_out (ks : option Z) : NOut := mkNOut [] [] [] None [] ks.

(** [enforce_news_window] of [news_windows0.2.py]. *)
Definition enforce_news_window_v2 (tk : NTick) (events_df : list Event)
    (window_min : Z) (recent_s : option Z) (ks : option Z) : NOut :=
  let now := n_now tk in
  let rs := recent_seconds window_min recent_s in
  match n_snap tk with
  | SnapRaise => empty_out ks
  | SnapOk snap =>
      let acc := fold_left (news_pos_v2 events_df window_min now rs (n_close tk))
                   (positions snap) (acc0 ks) in
      match a_affected acc, a_max_until acc with
      | _ :: _, Some mu =>
          mkNOut (a_affected acc) (a_closed acc) (a_failed acc) (Some mu)
            (a_effects acc ++ [EArm mu; ENotify]) (set_kill_until (a_kill acc) mu)
      | _, _ =>
          mkNOut (a_affected acc) (a_closed acc) (a_failed acc) None
            (a_effects acc) (a_kill acc)
      end
  end.

(** [enforce_news_window] of [news_windows0.1.py]. *)
Definition enforce_news_window_v1 (tk : NTick) (events_df : list Event)
    (window_min : Z) (recent_s : option Z) (ks : option Z) : NOut :=
  let now := n_now tk in
  let rs := recent_seconds window_min recent_s in
  match n_snap tk with
  | SnapRaise => empty_out ks
  | SnapOk snap =>
      let acc := fold_left (news_pos_v1 events_df window_min now rs (n_close tk)
                              (n_on_raises tk) (n_arm_raises tk))
                   (positions snap) (acc0 ks) in
      mkNOut (a_affected acc) (a_closed acc) (a_failed acc) (a_until_field acc)
        (a_effects acc) (a_kill acc)
  end.

(** The tickets of the close requests of an effect trace, in order. *)
Fixpoint closes_of (es : list effect) : list Z :=
  match es with
  | [] => []
  | EClose t :: r => t :: closes_of r
  | _ :: r => closes_of r
  end.

Definition close_is (o : close_outcome) (c : close_outcome) : bool :=
  match o, c with
  | CloseOk, CloseOk | CloseFailed, CloseFailed | CloseRaises, CloseRaises => true
  | _, _ => false
  end.

End News.

(* ------------------------------------------------------------------ *)
(** ** [auto_update_calendar] ([news_windows0.1.py], [news_windows0.2.py]) *)

Module Calendar.

(** [date.weekday()] of the UTC day number [day] (days since 1970-01-01, a
    Thursday): Monday is 0, Sunday is 6. *)
Definition weekday (day : Z) : Z := (day + 3) mod 7.

(** [datetime.utcnow().date()] for a Unix time in seconds. *)
Definition utc_day (now : Z) : Z := now / 86400.

(** One call: the clock, whether [update_news.py] exists, and whether
    [subprocess.run] raises. *)
Record CalCall := mkCalCall {
  c_now : Z;
  c_updater_exists : bool;
  c_run_raises : bool
}.

(** [weekday == 6 and LAST_CALENDAR_UPDATE_DAY != today] *)
Definition should_run (last : option Z) (today : Z) : bool :=
  (weekday today =? 6) &&
  match last with Some d => negb (d =? today) | None => true end.

(** [news_windows0.2.py] lines 235-259: returns whether the updater ran to
    completion and the new [LAST_CALENDAR_UPDATE_DAY]; a raising
    [subprocess.run] is caught and leaves the day unrecorded. *)
Definition auto_update_calendar_v2 (last : option Z) (c : CalCall) : bool * option Z :=
  let today := utc_day (c_now c) in
  if should_run last today then
    if c_updater_exists c then
      if c_run_raises c then (false, last) else (true, Some today)
    else (false, last)
  else (false, last).

Inductive cal_outcome :=
| CalRaised
| CalReturned (ran : bool) (last : option Z).

(** [news_windows0.1.py] lines 180-192: no handler around [subprocess.run]. *)
Definition auto_update_calendar_v1 (last : option Z) (c : CalCall) : cal_outcome :=
  let today := utc_day (c_now c) in
  if should_run last today then
    if c_updater_exists c then
      if c_run_raises c then CalRaised else CalReturned true (Some today)
    else CalReturned false last
  else CalReturned false last.

(** The call inside the [try] of [run_daemon]'s loop (0.1 lines 224-269,
    0.2 lines 332-349): an exception is caught by the loop's handler. *)
Definition daemon_calendar_step (v2 : bool) (last : option Z) (c : CalCall)
    : bool * option Z :=
  if v2 then auto_update_calendar_v2 last c
  else match auto_update_calendar_v1 last c with
       | CalRaised => (false, last)
       | CalReturned ran l => (ran, l)
       end.

(** The days on which successive loop iterations ran the updater. *)
Fixpoint calendar_runs (v2 : bool) (last : option Z) (cs : list CalCall) : list Z :=
  match cs with
  | [] => []
  | c :: r =>
      let '(ran, last') := daemon_calendar_step v2 last c in
      (if ran then [utc_day (c_now c)] else []) ++ calendar_runs v2 last' r
  end.

End Calendar.

(* ================================================================== *)
(** * Properties *)

(** ** Shared lemmas *)

Lemma string_append_assoc (a b c : string) :
  (a ++ b ++ c)%string = ((a ++ b) ++ c)%string.
Proof. induction a as [|x a IH]; simpl; [reflexivity | now rewrite IH]. Qed.

Lemma string_append_nil (a : string) : (a ++ EmptyString)%string = a.
Proof. induction a as [|x a IH]; simpl; [reflexivity | now rewrite IH]. Qed.

Lemma fold_writes (cs : list string) (file : string) :
  fold_left apply_op (map FWrite cs) file = (file ++ String.concat EmptyString cs)%string.
Proof.
  revert file; induction cs as [|c cs IH]; intro file; simpl.
  - now rewrite string_append_nil.
  - rewrite IH. destruct cs as [|c' cs']; simpl.
    + now rewrite string_append_nil.
    + now rewrite string_append_assoc.
Qed.

(** Outside the violating branch no close is issued, and [attempts] is
    either kept or reset to 0. *)
Lemma enforce_within_threshold thr N bm tk w snap :
  tk_snap tk = SnapOk snap ->
  Qle_bool (total_risk_pct snap) (thr + eps) = true ->
  exists w' r, enforce_aggregate_risk thr N bm tk w = Returned w' r /\
    closed r = [] /\ failed r = [] /\ new_tickets_detected r = [] /\
    (block_attempts (w_state w') = block_attempts (w_state w) \/
     block_attempts (w_state w') = 0).
Proof.
  intros Hs Hq. unfold enforce_aggregate_risk. rewrite Hs.
  destruct w as [[bl a la rb] ks]; cbn [w_state w_kill baseline_tickets
    block_attempts last_attempt_at risk_block_active].
  destruct la as [la|];
    [destruct ((0 <? a) && (block_seconds bm <=? tk_now tk - la)) |].
  all: destruct bl as [|b bl]; [ eexists _, _; split; [reflexivity|]; cbn; auto | ].
  all: rewrite Hq.
  all: destruct ((rb || kill_active (tk_now tk) ks) && negb (kill_active (tk_now tk) ks)).
  all: eexists _, _; split; [reflexivity|]; cbn; auto.
Qed.

Lemma In_insert_sorted x y l : In x (insert_sorted y l) <-> y = x \/ In x l.
Proof.
  induction l as [|z l IH]; simpl; [tauto|].
  destruct (y <=? z); simpl; [tauto|]. rewrite IH. tauto.
Qed.

Lemma In_sorted x l : In x (sorted l) <-> In x l.
Proof.
  induction l as [|y l IH]; simpl; [tauto|].
  rewrite In_insert_sorted, IH. intuition.
Qed.

Lemma In_ticket_set t ps : In t (ticket_set ps) <-> In t (map p_ticket ps).
Proof. unfold ticket_set. apply nodup_In. Qed.

Lemma memZ_In x l : memZ x l = true <-> In x l.
Proof.
  unfold memZ. rewrite existsb_exists. split.
  - intros [y [Hy Hxy]]. apply Z.eqb_eq in Hxy. now subst.
  - intros H. exists x. split; [exact H | apply Z.eqb_refl].
Qed.

(** ** C5 *)

(** C5 (as stated): two successive calls on an unchanged snapshot within the
    threshold leave [attempts] unchanged. Refuted: with a recorded block and
    an inactive kill switch, the first call performs the clean reset of
    step 3 and sets [attempts] from 3 to 0. *)
Lemma idempotence_counterexample :
  let tk := mkTick 100 (SnapOk (mkSnapshot 3 [mkPosition 1 "EURUSD" 0 1 (Some 0)]))
              (fun _ => true) false in
  let w := mkWorld (mkEnfState [1] 3 (Some 90) true) None in
  block_attempts (w_state (step_world 5 3 60 tk w)) = 0 /\
  block_attempts (w_state w) = 3.
Proof. vm_compute. split; reflexivity. Qed.

(** C5 (amended): calling [enforce_aggregate_risk] twice with the same
    snapshot whose total risk is at or below the threshold issues no close
    request on either call, and neither call increases [attempts]: each one
    keeps it or resets it to 0 (stale-attempt decay or the clean reset of a
    block whose kill switch is no longer active). *)
Theorem idempotence_within_threshold thr N bm tk1 tk2 w snap :
  tk_snap tk1 = SnapOk snap -> tk_snap tk2 = SnapOk snap ->
  Qle_bool (total_risk_pct snap) (thr + eps) = true ->
  exists w1 r1 w2 r2,
    enforce_aggregate_risk thr N bm tk1 w = Returned w1 r1 /\
    enforce_aggregate_risk thr N bm tk2 w1 = Returned w2 r2 /\
    closed r1 = [] /\ failed r1 = [] /\ closed r2 = [] /\ failed r2 = [] /\
    (block_attempts (w_state w1) = block_attempts (w_state w) \/
     block_attempts (w_state w1) = 0) /\
    (block_attempts (w_state w2) = block_attempts (w_state w1) \/
     block_attempts (w_state w2) = 0).
Proof.
  intros H1 H2 Hq.
  destruct (enforce_within_threshold thr N bm tk1 w snap H1 Hq)
    as (w1 & r1 & E1 & C1 & F1 & _ & A1).
  destruct (enforce_within_threshold thr N bm tk2 w1 snap H2 Hq)
    as (w2 & r2 & E2 & C2 & F2 & _ & A2).
  exists w1, r1, w2, r2. repeat split; assumption.
Qed.

Lemma idempotence_within_threshold_witness :
  let snap := mkSnapshot 3 [mkPosition 1 "EURUSD" 0 1 (Some 0)] in
  let tk := mkTick 100 (SnapOk snap) (fun _ => true) false in
  let w := mkWorld (mkEnfState [1] 3 (Some 90) true) None in
  exists w1 r1 w2 r2,
    enforce_aggregate_risk 5 3 60 tk w = Returned w1 r1 /\
    enforce_aggregate_risk 5 3 60 tk w1 = Returned w2 r2 /\
    closed r1 = [] /\ failed r1 = [] /\ closed r2 = [] /\ failed r2 = [] /\
    (block_attempts (w_state w1) = block_attempts (w_state w) \/
     block_attempts (w_state w1) = 0) /\
    (block_attempts (w_state w2) = block_attempts (w_state w1) \/
     block_attempts (w_state w2) = 0).
Proof.
  intros snap tk w.
  apply (idempotence_within_threshold 5 3 60 tk tk w snap);
    [reflexivity | reflexivity | vm_compute; reflexivity].
Defined.

(** ** C8 *)

(** C8: whenever the persisted baseline is empty or absent (also after a
    first run that saw no position and stored [[]]), the first-run branch is
    taken: nothing is closed, no ticket is counted as new, [attempts] is not
    incremented (kept, or 0 by decay), and every ticket of the snapshot
    becomes part of the baseline; a first run with no position stores an
    empty baseline again, so the next tick takes this branch too. *)
Theorem empty_baseline_first_run thr N bm tk w snap :
  tk_snap tk = SnapOk snap ->
  baseline_tickets (w_state w) = [] ->
  exists w' r, enforce_aggregate_risk thr N bm tk w = Returned w' r /\
    closed r = [] /\ failed r = [] /\ new_tickets_detected r = [] /\
    (block_attempts (w_state w') = block_attempts (w_state w) \/
     block_attempts (w_state w') = 0) /\
    baseline_tickets (w_state w') = sorted (ticket_set (positions snap)) /\
    (forall t, In t (map p_ticket (positions snap)) ->
       In t (baseline_tickets (w_state w'))) /\
    (positions snap = [] -> baseline_tickets (w_state w') = []).
Proof.
  intros Hs Hb. unfold enforce_aggregate_risk. rewrite Hs.
  destruct w as [[bl a la rb] ks]; cbn in Hb; subst bl;
    cbn [w_state w_kill baseline_tickets block_attempts last_attempt_at
      risk_block_active].
  assert (Hin : forall t, In t (map p_ticket (positions snap)) ->
            In t (sorted (ticket_set (positions snap)))).
  { intros t Ht. apply In_sorted, In_ticket_set, Ht. }
  assert (Hnil : positions snap = [] -> sorted (ticket_set (positions snap)) = []).
  { intros E. rewrite E. reflexivity. }
  destruct la as [la|];
    [destruct ((0 <? a) && (block_seconds bm <=? tk_now tk - la)) |].
  all: eexists _, _; split; [reflexivity|]; cbn; auto 10.
Qed.

Lemma empty_baseline_first_run_witness :
  let snap := mkSnapshot 40 [mkPosition 7 "EURUSD" 0 1 (Some 0)] in
  let tk := mkTick 100 (SnapOk snap) (fun _ => true) false in
  let w := mkWorld (mkEnfState [] 2 None false) None in
  exists w' r, enforce_aggregate_risk 5 3 60 tk w = Returned w' r /\
    closed r = [] /\ failed r = [] /\ new_tickets_detected r = [] /\
    (block_attempts (w_state w') = block_attempts (w_state w) \/
     block_attempts (w_state w') = 0) /\
    baseline_tickets (w_state w') = sorted (ticket_set (positions snap)) /\
    (forall t, In t (map p_ticket (positions snap)) ->
       In t (baseline_tickets (w_state w'))) /\
    (positions snap = [] -> baseline_tickets (w_state w') = []).
Proof.
  intros snap tk w.
  apply (empty_baseline_first_run 5 3 60 tk w snap); reflexivity.
Defined.

(** Case analysis over the branches of [enforce_aggregate_risk]. *)
Ltac crunch :=
  repeat match goal with
  | |- context [match ?x with _ => _ end] =>
      lazymatch x with
      | context [match _ with _ => _ end] => fail
      | _ => let E := fresh "E" in destruct x eqn:E
      end
  end.

Ltac zbool :=
  repeat match goal with
  | H : (_ <=? _) = true |- _ => apply Z.leb_le in H
  | H : (_ <=? _) = false |- _ => apply Z.leb_gt in H
  | H : (_ <? _) = true |- _ => apply Z.ltb_lt in H
  | H : (_ <? _) = false |- _ => apply Z.ltb_ge in H
  end.

(** ** C6 *)

(** C6 (as stated): with [attempts > 0] and at least [block_minutes] of
    idle time, the next call resets [attempts]. Refuted for
    [block_minutes = 0]: the code measures the window as
    [max(1, block_minutes)] minutes, so 30 idle seconds do not reset it. *)
Lemma decay_counterexample :
  let tk := mkTick 30 (SnapOk (mkSnapshot 1 [mkPosition 1 "EURUSD" 0 1 (Some 0)]))
              (fun _ => true) false in
  let w := mkWorld (mkEnfState [1] 1 (Some 0) false) None in
  0 < block_attempts (w_state w) /\ 0 * 60 <= tk_now tk - 0 /\
  block_attempts (w_state (step_world 5 3 0 tk w)) = 1 /\
  last_attempt_at (w_state (step_world 5 3 0 tk w)) = Some 0.
Proof. vm_compute. repeat split; reflexivity || discriminate. Qed.

(** C6 (amended): if [attempts > 0] and the time since [last_attempt_at] is
    at least [max(1, block_minutes)] minutes, the next call starts from
    [attempts = 0]; it ends with [attempts = 0] and no [last_attempt_at]
    unless that same call detects new tickets, in which case [attempts] is
    their number and [last_attempt_at] is now. *)
Theorem decay_after_idle_window thr N bm tk w snap la :
  tk_snap tk = SnapOk snap ->
  0 < block_attempts (w_state w) ->
  last_attempt_at (w_state w) = Some la ->
  block_seconds bm <= tk_now tk - la ->
  exists w' r, enforce_aggregate_risk thr N bm tk w = Returned w' r /\
    attempts_before r = 0 /\
    block_attempts (w_state w') = Z.of_nat (List.length (new_tickets_detected r)) /\
    (new_tickets_detected r = [] -> last_attempt_at (w_state w') = None) /\
    (new_tickets_detected r <> [] -> last_attempt_at (w_state w') = Some (tk_now tk)).
Proof.
  intros Hs Ha Hl Hi. unfold enforce_aggregate_risk. rewrite Hs.
  destruct w as [[bl a la' rb] ks]; cbn in Ha, Hl; subst la';
    cbn [w_state w_kill baseline_tickets block_attempts last_attempt_at
      risk_block_active].
  replace ((0 <? a) && (block_seconds bm <=? tk_now tk - la)) with true
    by (symmetry; apply andb_true_iff; split; [apply Z.ltb_lt | apply Z.leb_le]; lia).
  crunch; eexists _, _; (split; [reflexivity|]); cbn;
    repeat split; intros; try congruence; try lia.
Qed.

Lemma decay_after_idle_window_witness :
  let snap := mkSnapshot 7 [mkPosition 1 "EURUSD" 0 1 (Some 0);
                            mkPosition 9 "EURUSD" 0 1 (Some 0)] in
  let tk := mkTick 4000 (SnapOk snap) (fun _ => true) false in
  let w := mkWorld (mkEnfState [1] 2 (Some 100) false) None in
  exists w' r, enforce_aggregate_risk 5 3 60 tk w = Returned w' r /\
    attempts_before r = 0 /\
    block_attempts (w_state w') = Z.of_nat (List.length (new_tickets_detected r)) /\
    (new_tickets_detected r = [] -> last_attempt_at (w_state w') = None) /\
    (new_tickets_detected r <> [] -> last_attempt_at (w_state w') = Some (tk_now tk)).
Proof.
  intros snap tk w.
  apply (decay_after_idle_window 5 3 60 tk w snap 100);
    [reflexivity | cbn; lia | reflexivity | vm_compute; discriminate].
Defined.

(** ** C10 *)

(** C10 (as stated): when arming raises, the report shows the kill switch
    inactive with no [until]. Refuted: the handler's [False]/[None] are
    overwritten by the re-query of lines 184-187, which reports the stored
    record, here an expired [until] at 50. *)
Lemma arm_failure_counterexample :
  let snap := mkSnapshot 7 [mkPosition 1 "EURUSD" 0 1 (Some 0);
                            mkPosition 2 "EURUSD" 0 1 (Some 0)] in
  let tk := mkTick 100 (SnapOk snap) (fun _ => true) true in
  let w := mkWorld (mkEnfState [1] 0 None false) (Some 50) in
  match enforce_aggregate_risk 5 1 60 tk w with
  | Returned w' r =>
      risk_block_active (w_state w') = true /\
      attempts_after r = 1 /\
      kill_switch_active_after r = false /\
      kill_switch_until_after r = Some 50
  | Raised => False
  end.
Proof. vm_compute. repeat split. Qed.

(** C10 (amended): if [attempts] reaches [max_attempts] on a violating tick
    whose kill switch was inactive and arming raises, the call still returns;
    [risk_block_active] is persisted as true, the kill-switch record is left
    as it was, the report says nothing was armed now, shows the switch
    inactive, and reports as [until] the record observed by a fresh
    [kill_status()] (so [None] only when no [until] is stored). *)
Theorem arm_failure_swallowed thr N bm tk w snap :
  tk_snap tk = SnapOk snap ->
  baseline_tickets (w_state w) <> [] ->
  Qle_bool (total_risk_pct snap) (thr + eps) = false ->
  kill_active (tk_now tk) (w_kill w) = false ->
  tk_arm_raises tk = true ->
  exists w' r, enforce_aggregate_risk thr N bm tk w = Returned w' r /\
    (N <= attempts_after r ->
       risk_block_active (w_state w') = true /\
       w_kill w' = w_kill w /\
       kill_switch_armed_now r = false /\
       kill_switch_active_after r = false /\
       kill_switch_until_after r = w_kill w).
Proof.
  intros Hs Hb Hq Hk Ha. unfold enforce_aggregate_risk. rewrite Hs, Hq, Hk, Ha.
  destruct w as [[bl a la rb] ks]; cbn in Hb, Hk |- *.
  destruct bl as [|b bl]; [congruence|].
  crunch; eexists _, _; (split; [reflexivity|]); cbn; intros; zbool;
    repeat split; try congruence;
    try (cbn [List.length] in *; rewrite ?Zpos_P_of_succ_nat, ?Nat2Z.inj_succ in *; lia).
Qed.

Lemma arm_failure_swallowed_witness :
  let snap := mkSnapshot 7 [mkPosition 1 "EURUSD" 0 1 (Some 0);
                            mkPosition 2 "EURUSD" 0 1 (Some 0)] in
  let tk := mkTick 100 (SnapOk snap) (fun _ => true) true in
  let w := mkWorld (mkEnfState [1] 0 None false) None in
  exists w' r, enforce_aggregate_risk 5 1 60 tk w = Returned w' r /\
    (1 <= attempts_after r ->
       risk_block_active (w_state w') = true /\
       w_kill w' = w_kill w /\
       kill_switch_armed_now r = false /\
       kill_switch_active_after r = false /\
       kill_switch_until_after r = w_kill w).
Proof.
  intros snap tk w.
  apply (arm_failure_swallowed 5 1 60 tk w snap);
    [reflexivity | discriminate | vm_compute; reflexivity | reflexivity | reflexivity].
Defined.

(** ** C4 *)

(** C4 (code bug): [enforce_aggregate_risk] calls [reader.snapshot()]
    outside any [try] (line 67), so a failing snapshot escapes it, and the
    loop of [limits_watch.main] only handles [KeyboardInterrupt]: the loop
    terminates and the next tick never runs. The sibling
    [enforce_news_window] catches the same failure and returns an empty
    report. *)
Theorem snapshot_failure_ends_watch_loop :
  let good := mkTick 10 (SnapOk (mkSnapshot 0 [])) (fun _ => true) false in
  let bad := mkTick 0 SnapRaise (fun _ => true) false in
  let w0 := mkWorld empty_state None in
  enforce_aggregate_risk 5 3 60 bad w0 = Raised /\
  limits_watch 5 3 60 [bad; good] w0 = WatchTerminated w0 [good] /\
  News.enforce_news_window_v2 (News.mkNTick 0 SnapRaise (fun _ => News.CloseOk))
    [] 60 None None = News.empty_out None.
Proof. repeat split. Qed.

(** ** C7 *)

Lemma concat_cons (x : string) (l : list string) :
  String.concat EmptyString (x :: l) = (x ++ String.concat EmptyString l)%string.
Proof. destruct l; cbn; [now rewrite string_append_nil | reflexivity]. Qed.

Lemma concat_app (l1 l2 : list string) :
  String.concat EmptyString (l1 ++ l2) =
    (String.concat EmptyString l1 ++ String.concat EmptyString l2)%string.
Proof.
  induction l1 as [|x l1 IH]; [reflexivity|].
  rewrite <- app_comm_cons, !concat_cons, IH. apply string_append_assoc.
Qed.

Lemma length_string_append (a b : string) :
  String.length (a ++ b) = (String.length a + String.length b)%nat.
Proof. induction a as [|x a IH]; cbn; [reflexivity | now rewrite IH]. Qed.

Lemma length_concat_firstn k (l : list string) :
  (String.length (String.concat EmptyString (firstn k l)) <=
   String.length (String.concat EmptyString l))%nat.
Proof.
  rewrite <- (firstn_skipn k l) at 2. rewrite concat_app, length_string_append. lia.
Qed.

(** The serialization of a dictionary always ends with a closing brace. *)
Lemma json_dump_chunks_last d :
  exists pre last, json_dump_chunks d = pre ++ [last] /\ last <> EmptyString.
Proof.
  destruct d as [|kv d].
  - exists [], "{}"%string. split; [reflexivity | discriminate].
  - unfold json_dump_chunks. cbn [iterencode].
    match goal with
    | |- exists pre last, ?a :: ?b :: (?x ++ [?c; ?e]) = _ /\ _ =>
        exists (a :: b :: x ++ [c]), e
    end.
    split; [|discriminate]. cbn [app]. now rewrite <- app_assoc.
Qed.

(** C7 (as stated): a save either completes or leaves the prior file intact.
    Refuted: [open(STATE_FILE, "w")] truncates first, so a crash right after
    it leaves an empty file, neither the prior content nor the new one. *)
Lemma save_state_counterexample :
  let old := String.concat EmptyString (json_dump_chunks
               [("baseline_tickets"%string, JList [JInt 1]); ("block_attempts"%string, JInt 0);
                ("risk_block_active"%string, JBool false)]) in
  let d := [("baseline_tickets"%string, JList [JInt 1; JInt 2]);
            ("block_attempts"%string, JInt 1);
            ("last_attempt_at"%string, JStr "2024-01-01T00:00:00+00:00");
            ("risk_block_active"%string, JBool false)] in
  crash_after 1 (save_state_ops d) old = EmptyString /\
  EmptyString <> old /\
  EmptyString <> String.concat EmptyString (json_dump_chunks d).
Proof. vm_compute. repeat split; discriminate. Qed.

(** C7 (amended): [_save_state] rewrites the state file in place, without a
    temporary file or rename: a crash before the open leaves the prior file,
    and a crash at any later point leaves exactly a prefix of the new
    serialization [json.dump(d)] (empty right after the truncating open);
    only a completed write yields the new content: every crash point after
    the open and before the last write leaves something else. *)
Theorem save_state_in_place d old :
  crash_after 0 (save_state_ops d) old = old /\
  (forall k, crash_after (S k) (save_state_ops d) old =
             String.concat EmptyString (firstn k (json_dump_chunks d))) /\
  crash_after (List.length (save_state_ops d)) (save_state_ops d) old =
    String.concat EmptyString (json_dump_chunks d) /\
  (forall k, (0 < k < List.length (save_state_ops d))%nat ->
     crash_after k (save_state_ops d) old <> String.concat EmptyString (json_dump_chunks d)).
Proof.
  assert (Hk : forall k, crash_after (S k) (save_state_ops d) old =
             String.concat EmptyString (firstn k (json_dump_chunks d))).
  { intro k. unfold crash_after, save_state_ops. cbn [firstn fold_left].
    rewrite firstn_map, fold_writes. reflexivity. }
  split; [reflexivity | split; [exact Hk | split]].
  - unfold save_state_ops at 1. cbn [List.length]. rewrite Hk, length_map, firstn_all.
    reflexivity.
  - intros [|k] Hlt; [lia|]. rewrite Hk. intros Heq.
    unfold save_state_ops in Hlt. cbn [List.length] in Hlt. rewrite length_map in Hlt.
    destruct (json_dump_chunks_last d) as (pre & last & Hd & Hne).
    rewrite Hd in Heq, Hlt. rewrite length_app in Hlt. cbn [List.length] in Hlt.
    rewrite firstn_app, (proj2 (Nat.sub_0_le k (List.length pre))) in Heq by lia.
    cbn [firstn] in Heq. rewrite app_nil_r, concat_app in Heq.
    apply (f_equal String.length) in Heq.
    rewrite length_string_append in Heq.
    pose proof (length_concat_firstn k pre).
    rewrite concat_cons, length_string_append in Heq.
    destruct last; [congruence|]. cbn [String.length] in Heq. lia.
Qed.

Lemma save_state_in_place_witness :
  let d := [("baseline_tickets"%string, JList [JInt 1; JInt 2]);
            ("block_attempts"%string, JInt 1)] in
  crash_after 0 (save_state_ops d) EmptyString = EmptyString /\
  (forall k, crash_after (S k) (save_state_ops d) EmptyString =
             String.concat EmptyString (firstn k (json_dump_chunks d))) /\
  crash_after (List.length (save_state_ops d)) (save_state_ops d) EmptyString =
    String.concat EmptyString (json_dump_chunks d) /\
  (forall k, (0 < k < List.length (save_state_ops d))%nat ->
     crash_after k (save_state_ops d) EmptyString <>
       String.concat EmptyString (json_dump_chunks d)).
Proof. intros d. exact (save_state_in_place d EmptyString). Defined.

(** ** C9 *)

Lemma fold_left_inv {A B : Type} (P : A -> Prop) (f : A -> B -> A) (l : list B) :
  (forall a b, In b l -> P a -> P (f a b)) -> forall a, P a -> P (fold_left f l a).
Proof.
  induction l as [|b l IH]; intros Hf a Ha; simpl; [exact Ha|].
  apply IH; [intros a' b' Hb'; apply Hf; now right | apply Hf; [now left | exact Ha]].
Qed.

Section RecentOnly.
Variables (events_df : list News.Event) (window_min now rs : Z)
          (close : Z -> News.close_outcome) (on_raises arm_raises : Z -> bool)
          (ps : list Position).

(** The positions the news enforcer may act upon: opened at most [rs]
    seconds before [now]. *)
Definition recent_position (t : Z) : Prop :=
  exists pos, In pos ps /\ p_ticket pos = t /\
    exists ot, p_open_time pos = Some ot /\ now - ot <= rs.

Definition acts_on_recent (acc : News.NAcc) : Prop :=
  (forall t, In (News.EClose t) (News.a_effects acc) -> recent_position t) /\
  (forall a, In a (News.a_affected acc) -> recent_position (fst (fst a))).

Lemma pos_matches_recent pos m ms :
  News.pos_matches events_df window_min now rs pos = m :: ms ->
  exists ot, p_open_time pos = Some ot /\ now - ot <= rs.
Proof.
  unfold News.pos_matches.
  destruct (String.eqb (p_symbol pos) EmptyString); [discriminate|].
  destruct (p_open_time pos) as [ot|]; [|discriminate].
  destruct (rs <? now - ot) eqn:E; [discriminate|].
  intros _. exists ot. split; [reflexivity|]. apply Z.ltb_ge in E. lia.
Qed.

Lemma news_pos_recent (v2 : bool) acc pos :
  In pos ps -> acts_on_recent acc ->
  acts_on_recent ((if v2 then News.news_pos_v2 events_df window_min now rs close
                    else News.news_pos_v1 events_df window_min now rs close on_raises arm_raises)
                    acc pos).
Proof.
  intros Hin [He Ha].
  assert (Hr : forall m ms, News.pos_matches events_df window_min now rs pos = m :: ms ->
                 recent_position (p_ticket pos)).
  { intros m ms Hm. destruct (pos_matches_recent pos m ms Hm) as (ot & Ho & Hle).
    exists pos. repeat split; auto. exists ot. auto. }
  destruct v2; [unfold News.news_pos_v2 | unfold News.news_pos_v1];
  destruct (News.pos_matches events_df window_min now rs pos) as [|m ms] eqn:Hm;
    try (split; assumption);
  repeat match goal with
  | |- context [on_raises ?t] => destruct (on_raises t)
  | |- context [arm_raises ?t] => destruct (arm_raises t)
  | |- context [close ?t] => destruct (close t)
  end; cbn;
  (split; [intros t Ht | intros a Ht]); cbn [News.a_effects News.a_affected] in Ht;
  repeat match goal with
  | H : In _ (_ ++ _) |- _ => apply in_app_iff in H
  | H : In _ (_ :: _) |- _ => destruct H as [H|H]
  | H : In _ [] |- _ => destruct H
  | H : _ \/ _ |- _ => destruct H as [H|H]
  end;
  first [ now apply He | now apply Ha | discriminate
        | (injection Ht as <-; now apply (Hr m ms))
        | (subst a; cbn; now apply (Hr m ms)) ].
Qed.

End RecentOnly.

(** C9: when [recent_s] is [None] it defaults to [window_min * 60]; then in
    both revisions of [enforce_news_window] every close request and every
    affected entry concerns a position of the snapshot opened at most
    [window_min * 60] seconds before now (one hour with the default window
    of 60 minutes). *)
Theorem default_recent_window tk events_df window_min ks :
  News.recent_seconds window_min None = window_min * 60 /\
  (forall snap, News.n_snap tk = SnapOk snap ->
     let ps := positions snap in
     let o2 := News.enforce_news_window_v2 tk events_df window_min None ks in
     let o1 := News.enforce_news_window_v1 tk events_df window_min None ks in
     (forall t, In (News.EClose t) (News.o_effects o2) ->
        recent_position (News.n_now tk) (window_min * 60) ps t) /\
     (forall a, In a (News.o_affected o2) ->
        recent_position (News.n_now tk) (window_min * 60) ps (fst (fst a))) /\
     (forall t, In (News.EClose t) (News.o_effects o1) ->
        recent_position (News.n_now tk) (window_min * 60) ps t) /\
     (forall a, In a (News.o_affected o1) ->
        recent_position (News.n_now tk) (window_min * 60) ps (fst (fst a)))).
Proof.
  split; [reflexivity|]. intros snap Hs ps.
  assert (Hinv : forall v2 : bool,
    acts_on_recent (News.n_now tk) (window_min * 60) ps
      (fold_left (if v2 then News.news_pos_v2 events_df window_min (News.n_now tk)
                               (window_min * 60) (News.n_close tk)
                  else News.news_pos_v1 events_df window_min (News.n_now tk) (window_min * 60)
                         (News.n_close tk) (News.n_on_raises tk) (News.n_arm_raises tk))
                 ps (News.acc0 ks))).
  { intro v2. apply fold_left_inv.
    - intros a b Hb Ha. now apply news_pos_recent.
    - split; cbn; intros _ []. }
  destruct (Hinv true) as [E2 A2]. destruct (Hinv false) as [E1 A1].
  cbn zeta in E2, A2, E1, A1.
  unfold News.enforce_news_window_v2, News.enforce_news_window_v1. rewrite Hs.
  cbn [News.recent_seconds]. fold ps.
  repeat split; auto.
  - destruct (News.a_affected _) as [|x l]; [exact E2|].
    destruct (News.a_max_until _) as [mu|]; [|exact E2].
    cbn. intros t Ht. rewrite in_app_iff in Ht. destruct Ht as [Ht|[Ht|[Ht|[]]]];
      [now apply E2 | discriminate | discriminate].
  - destruct (News.a_affected _) as [|x l]; [exact A2|].
    destruct (News.a_max_until _); exact A2.
Qed.

Lemma default_recent_window_witness :
  let snap := mkSnapshot 0 [mkPosition 5 "EURUSD" 0 1 (Some 990)] in
  let tk := News.mkNTick 1000 (SnapOk snap) (fun _ => News.CloseOk) in
  News.o_effects (News.enforce_news_window_v2 tk [News.mkEvent "USD" 1300] 60 None None)
    = [News.EClose 5; News.EArm 4900; News.ENotify] /\
  recent_position 1000 (60 * 60) (positions snap) 5.
Proof.
  intros snap tk. split; [vm_compute; reflexivity|].
  destruct (default_recent_window tk [News.mkEvent "USD" 1300] 60 None) as [_ H].
  destruct (H snap eq_refl) as [H2 _]. apply H2. vm_compute. left. reflexivity.
Defined.

(** ** C3 *)

Lemma close_new_sub ok nt ps c f :
  close_new ok nt ps = (c, f) -> forall x, In x c \/ In x f -> In x nt.
Proof.
  revert c f; induction ps as [|p ps IH]; intros c f E x Hx; cbn in E.
  - injection E as <- <-. destruct Hx as [[]|[]].
  - destruct (close_new ok nt ps) as [c' f'] eqn:E'.
    destruct (memZ (p_ticket p) nt) eqn:Em; [destruct (ok (p_ticket p))|];
      injection E as <- <-; cbn in Hx;
      repeat match goal with H : _ \/ _ |- _ => destruct H as [H|H] end;
      first [ subst x; now apply memZ_In | apply (IH c' f'); auto ].
Qed.

(** What one tick does to tickets: new tickets are current tickets outside
    the baseline (none on a first run), every close request is for a new
    ticket, and the baseline is either kept or replaced by the current
    tickets. *)
Lemma filter_new_facts (bl : list Z) ps x :
  In x (filter (fun t => negb (memZ t bl)) (ticket_set ps)) ->
  In x (map p_ticket ps) /\ ~ In x bl.
Proof.
  intros Hx. apply filter_In in Hx. destruct Hx as [Hx Hn]. split.
  - now apply In_ticket_set.
  - intros Hb. apply memZ_In in Hb. rewrite Hb in Hn. discriminate.
Qed.

(** What one tick does to tickets: new tickets are current tickets outside
    the baseline (none on a first run), every close request is for a new
    ticket, and the baseline is either kept or replaced by the current
    tickets. *)
Lemma enforce_ticket_facts thr N bm tk w w' r snap :
  tk_snap tk = SnapOk snap ->
  enforce_aggregate_risk thr N bm tk w = Returned w' r ->
  (forall x, In x (new_tickets_detected r) ->
     In x (map p_ticket (positions snap)) /\ ~ In x (baseline_tickets (w_state w))) /\
  (forall x, In x (closed r) \/ In x (failed r) -> In x (new_tickets_detected r)) /\
  (baseline_tickets (w_state w) = [] -> new_tickets_detected r = []) /\
  (baseline_tickets (w_state w) = [] ->
     baseline_tickets (w_state w') = sorted (ticket_set (positions snap))) /\
  (baseline_tickets (w_state w') = baseline_tickets (w_state w) \/
   baseline_tickets (w_state w') = sorted (ticket_set (positions snap))).
Proof.
  intros Hs. unfold enforce_aggregate_risk. rewrite Hs.
  destruct w as [[bl a la rb] ks];
    cbn [w_state w_kill baseline_tickets block_attempts last_attempt_at
      risk_block_active].
  generalize (close_new_sub (tk_close_ok tk)
                (filter (fun t => negb (memZ t bl)) (ticket_set (positions snap)))
                (positions snap)).
  generalize (filter_new_facts bl (positions snap)).
  crunch; intros Hf Hc H; injection H as <- <-; cbn.
  all: refine (conj _ (conj _ (conj _ (conj _ _)))).
  all: try (left; reflexivity); try (right; reflexivity);
       try (intros; first [reflexivity | discriminate]).
  all: try exact Hf.
  all: try (intros x Hx; eapply Hc; eauto; fail).
  all: try (intros x [[]|[]]; fail); try (intros x []; fail).
Qed.

Lemma enforce_snapshot_raise thr N bm tk w :
  tk_snap tk = SnapRaise -> enforce_aggregate_risk thr N bm tk w = Raised.
Proof. intros Hs. unfold enforce_aggregate_risk. now rewrite Hs. Qed.

Lemma enforce_snapshot_ok thr N bm tk w s :
  tk_snap tk = SnapOk s -> enforce_aggregate_risk thr N bm tk w <> Raised.
Proof.
  intros Hs. unfold enforce_aggregate_risk. rewrite Hs.
  destruct w as [[bl a la rb] ks]. crunch; discriminate.
Qed.

Lemma run_cons thr N bm tk rest w :
  snd (run thr N bm (tk :: rest) w) =
  match enforce_aggregate_risk thr N bm tk w with
  | Raised => snd (run thr N bm rest w)
  | Returned w' r => r :: snd (run thr N bm rest w')
  end.
Proof.
  cbn [run]. destruct (enforce_aggregate_risk thr N bm tk w); [reflexivity|].
  destruct (run thr N bm rest w0). reflexivity.
Qed.

Section Baseline.
Variables (thr : Q) (N bm : Z) (t : Z).

(** [t] is still an open position at this tick (vacuous if the snapshot
    fails). *)
Definition ticket_open (tk : Tick) : Prop :=
  match tk_snap tk with
  | SnapOk s => In t (map p_ticket (positions s))
  | SnapRaise => True
  end.

(** [t] has been closed: it is not in this tick's snapshot. *)
Definition ticket_gone (tk : Tick) : Prop :=
  match tk_snap tk with
  | SnapOk s => ~ In t (map p_ticket (positions s))
  | SnapRaise => True
  end.

Definition untouched (r : Report) : Prop :=
  ~ In t (new_tickets_detected r) /\ ~ In t (closed r) /\ ~ In t (failed r).

Lemma untouched_of_new r :
  ~ In t (new_tickets_detected r) ->
  (forall x, In x (closed r) \/ In x (failed r) -> In x (new_tickets_detected r)) ->
  untouched r.
Proof. intros Hn Hc. split; [exact Hn | split; intro H; apply Hn, Hc; auto]. Qed.

Lemma run_after_close post w :
  Forall ticket_gone post -> Forall untouched (snd (run thr N bm post w)).
Proof.
  revert w; induction post as [|tk post IH]; intros w Hg; [constructor|].
  inversion Hg as [|? ? Hgone Hrest]; subst. rewrite run_cons.
  unfold ticket_gone in Hgone.
  destruct (tk_snap tk) as [s|] eqn:Hs.
  - destruct (enforce_aggregate_risk thr N bm tk w) as [|w' r] eqn:E; [now apply IH|].
    constructor; [|now apply IH].
    destruct (enforce_ticket_facts thr N bm tk w w' r s Hs E) as (Hn & Hc & _).
    apply untouched_of_new; [|exact Hc].
    intros Ht. apply Hgone, (Hn t Ht).
  - rewrite (enforce_snapshot_raise thr N bm tk w Hs). now apply IH.
Qed.

Lemma run_while_open pre post w :
  In t (baseline_tickets (w_state w)) ->
  Forall ticket_open pre -> Forall ticket_gone post ->
  Forall untouched (snd (run thr N bm (pre ++ post) w)).
Proof.
  revert w; induction pre as [|tk pre IH]; intros w Hb Ho Hg;
    [now apply run_after_close|].
  inversion Ho as [|? ? Hopen Hrest]; subst. cbn [app]. rewrite run_cons.
  unfold ticket_open in Hopen.
  destruct (tk_snap tk) as [s|] eqn:Hs.
  - destruct (enforce_aggregate_risk thr N bm tk w) as [|w' r] eqn:E; [now apply IH|].
    destruct (enforce_ticket_facts thr N bm tk w w' r s Hs E) as (Hn & Hc & _ & _ & Hbl).
    constructor.
    + apply untouched_of_new; [|exact Hc].
      intros Ht. apply (Hn t Ht), Hb.
    + apply IH; [|assumption|assumption].
      destruct Hbl as [-> | ->]; [exact Hb|].
      now apply In_sorted, In_ticket_set.
  - rewrite (enforce_snapshot_raise thr N bm tk w Hs). now apply IH.
Qed.

End Baseline.

(** C3: on the first run (empty baseline) every ticket [t] of the snapshot
    becomes baseline; on every later tick, as long as [t] stays open and
    after it has been closed (tickets are not reused: once gone from the
    snapshots it does not come back), [t] is never counted as a new ticket
    and never receives a close request, whatever the total risk. *)
Theorem first_run_tickets_never_violations thr N bm tk0 w0 s0 t pre post :
  tk_snap tk0 = SnapOk s0 ->
  baseline_tickets (w_state w0) = [] ->
  In t (map p_ticket (positions s0)) ->
  Forall (ticket_open t) pre ->
  Forall (ticket_gone t) post ->
  Forall (untouched t) (snd (run thr N bm (tk0 :: pre ++ post) w0)).
Proof.
  intros Hs Hb Ht Ho Hg. rewrite run_cons.
  destruct (enforce_aggregate_risk thr N bm tk0 w0) as [|w1 r1] eqn:E.
  - exfalso. exact (enforce_snapshot_ok thr N bm tk0 w0 s0 Hs E).
  - destruct (enforce_ticket_facts thr N bm tk0 w0 w1 r1 s0 Hs E)
      as (Hn & Hc & Hfirst & Hbase & _).
    constructor.
    + apply untouched_of_new; [|exact Hc]. rewrite (Hfirst Hb). intros [].
    + apply run_while_open; [|assumption|assumption].
      rewrite (Hbase Hb). now apply In_sorted, In_ticket_set.
Qed.

(** ** C1 *)

Ltac ltb_lia :=
  repeat match goal with
  | |- context [?x <? ?y] =>
      first [ rewrite (proj2 (Z.ltb_lt x y)) by lia
            | rewrite (proj2 (Z.ltb_ge x y)) by lia ]
  end;
  cbn; first [reflexivity | lia | assumption | trivial].

(** Sum of the new tickets detected over a list of reports. *)
Definition new_count (rs : list Report) : Z :=
  fold_right (fun r acc => Z.of_nat (List.length (new_tickets_detected r)) + acc) 0 rs.

Section Accounting.
Variables (thr : Q) (N bm t0 : Z).

(** A tick inside the block window opened at [t0], whose arm call does not
    raise. *)
Definition in_window (tk : Tick) : Prop :=
  t0 <= tk_now tk < t0 + block_seconds bm /\ tk_arm_raises tk = false.

(** The counter holds the accumulated new tickets [acc]; below [N] nothing
    is blocked and the kill switch is inactive for the whole window; from
    [N] on the block is set and the switch is armed past the window. *)
Definition acct_inv (w : World) (acc : Z) : Prop :=
  block_attempts (w_state w) = acc /\ 0 <= acc /\
  match last_attempt_at (w_state w) with None => True | Some l => t0 <= l end /\
  ((acc < N /\ risk_block_active (w_state w) = false /\
    match w_kill w with None => True | Some u => u <= t0 end) \/
   (N <= acc /\ risk_block_active (w_state w) = true /\
    exists u, w_kill w = Some u /\ t0 + block_seconds bm <= u)).

Lemma acct_step tk w w' r acc :
  acct_inv w acc -> in_window tk ->
  enforce_aggregate_risk thr N bm tk w = Returned w' r ->
  acct_inv w' (acc + Z.of_nat (List.length (new_tickets_detected r))).
Proof.
  intros Hinv [Hw Ha].
  unfold enforce_aggregate_risk.
  destruct (tk_snap tk) as [snap|]; [|discriminate].
  rewrite Ha.
  destruct w as [[bl a la rb] ks].
  destruct Hinv as (Hat & Hacc & Hla & Hcase); cbn in Hat, Hla, Hcase; subst a.
  unfold kill_active, set_kill_until, block_seconds in *.
  cbn [w_state w_kill baseline_tickets block_attempts last_attempt_at
    risk_block_active].
  crunch; intro H; injection H as <- <-; unfold acct_inv; cbn;
    zbool; cbn [List.length] in *;
    rewrite ?Zpos_P_of_succ_nat, ?Nat2Z.inj_succ in *;
    destruct Hcase as [(Hl & Hr & Hk) | (Hl & Hr & u' & Hk & Hu)];
    try discriminate; try (injection Hk as ->); subst;
    refine (conj _ (conj _ (conj _ _))); try lia; try assumption;
    unfold block_seconds in *;
    first [ exfalso; lia
          | solve [left; repeat split; ltb_lia]
          | solve [right; repeat split; try ltb_lia; eexists; split; [reflexivity | lia]] ].
Qed.

Lemma acct_run ticks w acc :
  acct_inv w acc -> Forall in_window ticks ->
  acct_inv (fst (run thr N bm ticks w)) (acc + new_count (snd (run thr N bm ticks w))).
Proof.
  revert w acc; induction ticks as [|tk ticks IH]; intros w acc Hinv Hw.
  - cbn. now rewrite Z.add_0_r.
  - inversion Hw as [|? ? Htk Hrest]; subst. cbn [run].
    destruct (enforce_aggregate_risk thr N bm tk w) as [|w' r] eqn:E; [now apply IH|].
    pose proof (acct_step tk w w' r acc Hinv Htk E) as Hinv'.
    specialize (IH w' _ Hinv' Hrest).
    destruct (run thr N bm ticks w') as [wf rs]. cbn in IH |- *.
    now rewrite Z.add_assoc.
Qed.

End Accounting.

(** Lines 79 and 190-191: while the kill switch is active, a returning tick
    persists and reports the block, in every branch. *)
Lemma kill_active_block_persisted thr N bm tk w w' r :
  kill_active (tk_now tk) (w_kill w) = true ->
  enforce_aggregate_risk thr N bm tk w = Returned w' r ->
  risk_block_active (w_state w') = true /\ risk_block_active_after r = true.
Proof.
  intros Hk. unfold enforce_aggregate_risk.
  destruct (tk_snap tk) as [snap|]; [|discriminate].
  destruct w as [[bl a la rb] ks]; cbn [w_kill] in Hk;
    cbn [w_state w_kill baseline_tickets block_attempts last_attempt_at
      risk_block_active].
  rewrite Hk. crunch; intro H; injection H as <- <-; cbn; rewrite ?orb_true_r in *;
    cbn in *; split; congruence.
Qed.

(** C1 (as stated): fewer than [N] accumulated new-ticket violations never
    set [risk_block_active]. Refuted when the kill switch is active from
    another path (step 6 ORs its status into the flag): one violation with
    [max_attempts = 3] already sets it. *)
Lemma attempts_counterexample :
  let snap := mkSnapshot 7 [mkPosition 1 "EURUSD" 0 1 (Some 0);
                            mkPosition 2 "EURUSD" 0 1 (Some 0)] in
  let tk := mkTick 100 (SnapOk snap) (fun _ => true) false in
  let w := mkWorld (mkEnfState [1] 0 None false) (Some 500) in
  block_attempts (w_state (step_world 5 3 60 tk w)) = 1 /\
  risk_block_active (w_state (step_world 5 3 60 tk w)) = true.
Proof. vm_compute. split; reflexivity. Qed.

(** C1 (amended): starting from a cleared counter with no block recorded and
    no kill switch armed by another path ([until] absent or past), over any
    sequence of ticks inside one block window of [max(1, block_minutes)]
    minutes (so no stale-attempt decay) whose arming does not raise, the
    persisted counter equals the accumulated number of new tickets, and
    [risk_block_active] is true exactly when that number has reached [N]:
    [N - 1] or fewer never set it, however they are split over ticks.
    And if the kill switch is already active from another path, any
    violating tick (non-empty baseline, risk above the threshold) persists
    and reports [risk_block_active], whatever [attempts] is. *)
Theorem attempts_trip_at_max thr N bm t0 ticks w0 :
  0 < N ->
  block_attempts (w_state w0) = 0 ->
  last_attempt_at (w_state w0) = None ->
  risk_block_active (w_state w0) = false ->
  match w_kill w0 with None => True | Some u => u <= t0 end ->
  Forall (in_window bm t0) ticks ->
  (block_attempts (w_state (fst (run thr N bm ticks w0))) =
     new_count (snd (run thr N bm ticks w0)) /\
   risk_block_active (w_state (fst (run thr N bm ticks w0))) =
     (N <=? new_count (snd (run thr N bm ticks w0)))) /\
  (forall tk w snap w' r,
     kill_active (tk_now tk) (w_kill w) = true ->
     tk_snap tk = SnapOk snap ->
     baseline_tickets (w_state w) <> [] ->
     Qle_bool (total_risk_pct snap) (thr + eps) = false ->
     enforce_aggregate_risk thr N bm tk w = Returned w' r ->
     risk_block_active (w_state w') = true /\ risk_block_active_after r = true).
Proof.
  intros HN Ha Hl Hr Hk Hw.
  split; [|intros tk w snap w' r Hka _ _ _; exact (kill_active_block_persisted thr N bm tk w w' r Hka)].
  assert (H0 : acct_inv N bm t0 w0 0).
  { unfold acct_inv. rewrite Ha, Hl. repeat split; try lia. left. auto. }
  destruct (acct_run thr N bm t0 ticks w0 0 H0 Hw) as (Hc & Hnn & _ & Hcase).
  rewrite Z.add_0_l in *. split; [exact Hc|].
  destruct Hcase as [(Hlt & Hf & _) | (Hge & Ht & _)].
  - rewrite Hf. symmetry. now apply Z.leb_gt.
  - rewrite Ht. symmetry. now apply Z.leb_le.
Qed.

Lemma attempts_trip_at_max_witness :
  let tk (now t : Z) := mkTick now (SnapOk (mkSnapshot 7
                 [mkPosition 1 "EURUSD" 0 1 (Some 0); mkPosition t "EURUSD" 0 1 (Some 0)]))
                 (fun _ => true) false in
  let ticks := [tk 10 100; tk 20 101; tk 30 102] in
  let w0 := mkWorld (mkEnfState [1] 0 None false) None in
  (block_attempts (w_state (fst (run 5 3 60 ticks w0))) =
     new_count (snd (run 5 3 60 ticks w0)) /\
   risk_block_active (w_state (fst (run 5 3 60 ticks w0))) =
     (3 <=? new_count (snd (run 5 3 60 ticks w0)))) /\
  (forall tk w snap w' r,
     kill_active (tk_now tk) (w_kill w) = true ->
     tk_snap tk = SnapOk snap ->
     baseline_tickets (w_state w) <> [] ->
     Qle_bool (total_risk_pct snap) (5 + eps) = false ->
     enforce_aggregate_risk 5 3 60 tk w = Returned w' r ->
     risk_block_active (w_state w') = true /\ risk_block_active_after r = true).
Proof.
  intros tk ticks w0.
  apply (attempts_trip_at_max 5 3 60 0 ticks w0);
    [lia | reflexivity | reflexivity | reflexivity | exact I |].
  repeat constructor; unfold tk_now; cbn; lia.
Defined.

Lemma first_run_tickets_never_violations_witness :
  let tk (now : Z) (ts : list Z) (r : Q) := mkTick now (SnapOk (mkSnapshot r
                 (map (fun t => mkPosition t "EURUSD" 0 1 (Some 0)) ts)))
                 (fun _ => true) false in
  Forall (untouched 1)
    (snd (run 5 3 60 (tk 0 [1; 2] 3%Q :: [tk 10 [1; 3] 9%Q] ++ [tk 20 [3; 4] 9%Q])
            (mkWorld empty_state None))).
Proof.
  intros tk.
  apply (first_run_tickets_never_violations 5 3 60 (tk 0 [1; 2] 3%Q) (mkWorld empty_state None)
           (mkSnapshot 3 (map (fun t => mkPosition t "EURUSD" 0 1 (Some 0)) [1; 2])) 1);
    [reflexivity | reflexivity | cbn; auto | | ].
  - repeat constructor; cbn; auto.
  - repeat constructor; cbn; intuition discriminate.
Defined.

(** ** C2 *)

(** C2 (code bug): [news_windows0.1.py] calls [set_kill_until] inside the
    loop, once per affected position, right after that position's close:
    with two affected positions the switch is armed twice, the first time
    before the second close, and [kill_switch_until] reports the last
    position's expiry (4900) rather than the batch maximum (5200). The
    revision [news_windows0.2.py] on the same input closes both positions
    and then arms once, at the maximum. *)
Theorem news_v1_arms_per_position :
  let snap := mkSnapshot 0 [mkPosition 1 "EURGBP" 0 1 (Some 990);
                            mkPosition 2 "USDJPY" 0 1 (Some 995)] in
  let tk := News.mkNTick 1000 (SnapOk snap) (fun _ => News.CloseOk) in
  let events := [News.mkEvent "USD" 1300; News.mkEvent "EUR" 1600] in
  News.o_effects (News.enforce_news_window_v1 tk events 60 None None) =
    [News.EAutoTradingOn; News.EClose 1; News.EArm 5200;
     News.EAutoTradingOn; News.EClose 2; News.EArm 4900] /\
  News.o_kill_switch_until (News.enforce_news_window_v1 tk events 60 None None) = Some 4900 /\
  News.o_effects (News.enforce_news_window_v2 tk events 60 None None) =
    [News.EClose 1; News.EClose 2; News.EArm 5200; News.ENotify] /\
  News.o_kill_switch_until (News.enforce_news_window_v2 tk events 60 None None) = Some 5200.
Proof. vm_compute. repeat split. Qed.

Lemma max_ts_facts m0 ms :
  In (News.max_ts m0 ms) (map News.ev_ts (m0 :: ms)) /\
  forall x, In x (map News.ev_ts (m0 :: ms)) -> x <= News.max_ts m0 ms.
Proof.
  unfold News.max_ts.
  assert (G : forall l y,
    (In (fold_left (fun a m => Z.max a (News.ev_ts m)) l y) (y :: map News.ev_ts l)) /\
    y <= fold_left (fun a m => Z.max a (News.ev_ts m)) l y /\
    forall x, In x (map News.ev_ts l) -> x <= fold_left (fun a m => Z.max a (News.ev_ts m)) l y).
  { induction l as [|m l IH]; intros y; cbn.
    - split; [now left | split; [lia | intros x []]].
    - destruct (IH (Z.max y (News.ev_ts m))) as (Hin & Hge & Hall).
      split; [|split].
      + destruct Hin as [Hin|Hin]; [|right; right; exact Hin].
        rewrite <- Hin.
        destruct (Z.max_spec y (News.ev_ts m)) as [[_ E]|[_ E]]; rewrite E;
          [right; left | left]; reflexivity.
      + lia.
      + intros x [<-|Hx]; [lia | now apply Hall]. }
  destruct (G ms (News.ev_ts m0)) as (Hin & Hge & Hall). split; [exact Hin|].
  intros x [<-|Hx]; [exact Hge | now apply Hall].
Qed.

(** In [news_windows0.2.py] the kill switch is armed once, after every close
    of the batch, at the latest matched event plus the window: the arm and
    the notification are the last two effects, no arm comes before them, and
    every affected position's close precedes them. *)
Lemma news_v2_single_arm tk events wm rs ks snap :
  News.n_snap tk = SnapOk snap ->
  News.o_affected (News.enforce_news_window_v2 tk events wm rs ks) <> [] ->
  exists pre mt,
    News.o_effects (News.enforce_news_window_v2 tk events wm rs ks) =
      pre ++ [News.EArm (mt + wm * 60); News.ENotify] /\
    (forall v, ~ In (News.EArm v) pre) /\
    (forall a, In a (News.o_affected (News.enforce_news_window_v2 tk events wm rs ks)) ->
       In (News.EClose (fst (fst a))) pre) /\
    In mt (flat_map (fun a => map News.ev_ts (snd a))
             (News.o_affected (News.enforce_news_window_v2 tk events wm rs ks))) /\
    (forall x, In x (flat_map (fun a => map News.ev_ts (snd a))
             (News.o_affected (News.enforce_news_window_v2 tk events wm rs ks))) -> x <= mt).
Proof.
  intros Hsnap Hne.
  set (FM := fun aff : list (Z * string * list News.Event) =>
               flat_map (fun a => map News.ev_ts (snd a)) aff).
  set (I := fun acc : News.NAcc =>
    (forall v, ~ In (News.EArm v) (News.a_effects acc)) /\
    (forall a, In a (News.a_affected acc) -> In (News.EClose (fst (fst a))) (News.a_effects acc)) /\
    match News.a_max_until acc with
    | None => News.a_affected acc = []
    | Some mu => exists mt, mu = mt + wm * 60 /\ In mt (FM (News.a_affected acc)) /\
                   forall x, In x (FM (News.a_affected acc)) -> x <= mt
    end).
  assert (Hinv : I (fold_left (News.news_pos_v2 events wm (News.n_now tk)
                     (News.recent_seconds wm rs) (News.n_close tk))
                     (positions snap) (News.acc0 ks))).
  { apply fold_left_inv; [| repeat split; cbn; tauto].
    intros acc pos _ (Harm & Hcl & Hmax).
    unfold News.news_pos_v2.
    destruct (News.pos_matches events wm (News.n_now tk) (News.recent_seconds wm rs) pos)
      as [|m0 ms] eqn:Hm; [exact (conj Harm (conj Hcl Hmax))|].
    destruct (max_ts_facts m0 ms) as (Hmin & Hmall).
    assert (Harm' : forall v, ~ In (News.EArm v) (News.a_effects acc ++ [News.EClose (p_ticket pos)])).
    { intros v Hv; apply in_app_or in Hv as [Hv|[Hv|[]]]; [exact (Harm v Hv) | discriminate]. }
    assert (Hcl' : forall a, In a (News.a_affected acc) ->
               In (News.EClose (fst (fst a))) (News.a_effects acc ++ [News.EClose (p_ticket pos)])).
    { intros a Ha; apply in_or_app; left; exact (Hcl a Ha). }
    assert (Hok : I (News.mkNAcc (News.a_affected acc ++ [(p_ticket pos, p_symbol pos, m0 :: ms)])
                 (News.a_closed acc) (News.a_failed acc)
                 match News.a_max_until acc with
                 | Some mu => if mu <? News.max_ts m0 ms + wm * 60
                              then Some (News.max_ts m0 ms + wm * 60) else Some mu
                 | None => Some (News.max_ts m0 ms + wm * 60)
                 end
                 (News.a_effects acc ++ [News.EClose (p_ticket pos)]) (News.a_kill acc)
                 (News.a_until_field acc))).
    { unfold I; cbn [News.a_effects News.a_affected News.a_max_until].
      split; [exact Harm'|split].
      - intros a Ha; apply in_app_or in Ha as [Ha|[<-|[]]]; [now apply Hcl'|].
        apply in_or_app; right; now left.
      - unfold FM in *; rewrite flat_map_app; cbn [flat_map snd]; rewrite app_nil_r.
        destruct (News.a_max_until acc) as [mu|].
        + destruct Hmax as (mt & -> & Hin & Hall).
          destruct (mt + wm * 60 <? News.max_ts m0 ms + wm * 60) eqn:Hlt;
            apply Z.ltb_lt in Hlt || apply Z.ltb_ge in Hlt.
          * exists (News.max_ts m0 ms); split; [reflexivity|split].
            -- apply in_or_app; right; exact Hmin.
            -- intros x Hx; apply in_app_or in Hx as [Hx|Hx];
                 [specialize (Hall x Hx); lia | now apply Hmall].
          * exists mt; split; [reflexivity|split].
            -- apply in_or_app; left; exact Hin.
            -- intros x Hx; apply in_app_or in Hx as [Hx|Hx];
                 [now apply Hall | specialize (Hmall x Hx); lia].
        + rewrite Hmax; cbn [app].
          exists (News.max_ts m0 ms); split; [reflexivity|split; [exact Hmin | exact Hmall]]. }
    destruct (News.n_close tk (p_ticket pos)); cbn [negb]; try exact Hok.
    exact (conj Harm' (conj Hcl' Hmax)). }
  revert Hne; unfold News.enforce_news_window_v2; rewrite Hsnap.
  destruct (fold_left _ _ _) as [aff cl fl mu eff kl uf]; destruct Hinv as (Harm & Hcl & Hmax).
  cbn [News.a_effects News.a_affected News.a_max_until News.a_closed News.a_failed
       News.a_kill] in *.
  destruct aff as [|a0 aff]; [intros H; now contradiction H|].
  destruct mu as [mu|]; [|discriminate Hmax].
  destruct Hmax as (mt & -> & Hin & Hall); intros _; cbn [News.o_effects News.o_affected].
  exists eff, mt; repeat split; assumption.
Qed.

(* ================================================================== *)
(** * Further properties of the code *)

(** ** [enforce_aggregate_risk] and [risk_block_status] *)

(** After any tick that returns, [risk_block_status()] queried at the same
    instant agrees with the tick's report: its [risk_block_active],
    [block_attempts], [baseline_tickets] and kill-switch fields are the
    report's [risk_block_active_after], [attempts_after],
    [baseline_tickets], [kill_switch_active_after] and
    [kill_switch_until_after]; the persisted flag equals the reported one. *)
Theorem status_matches_report thr N bm tk w w' r :
  enforce_aggregate_risk thr N bm tk w = Returned w' r ->
  risk_block_status (tk_now tk) w' =
    mkBlockStatus (risk_block_active_after r) (attempts_after r) (r_baseline_tickets r)
      (kill_switch_active_after r) (kill_switch_until_after r) /\
  risk_block_active (w_state w') = risk_block_active_after r.
Proof.
  unfold enforce_aggregate_risk.
  destruct (tk_snap tk) as [snap|]; [|discriminate].
  destruct w as [[bl a la rb] ks];
    cbn [w_state w_kill baseline_tickets block_attempts last_attempt_at
      risk_block_active].
  crunch; intro H; injection H as <- <-; unfold risk_block_status; cbn;
    repeat match goal with
    | |- context [kill_active ?n ?k] => destruct (kill_active n k) eqn:?
    end;
    destruct rb; cbn in *; split; congruence.
Qed.

Lemma status_matches_report_witness :
  let snap := mkSnapshot 7 [mkPosition 1 "EURUSD" 0 1 (Some 0);
                            mkPosition 2 "EURUSD" 0 1 (Some 0);
                            mkPosition 3 "GBPUSD" 1 1 (Some 0)] in
  let tk := mkTick 100 (SnapOk snap) (fun _ => true) false in
  let w := mkWorld (mkEnfState [1] 0 None false) None in
  match enforce_aggregate_risk 5 2 60 tk w with
  | Returned w' r =>
      risk_block_status (tk_now tk) w' =
        mkBlockStatus (risk_block_active_after r) (attempts_after r) (r_baseline_tickets r)
          (kill_switch_active_after r) (kill_switch_until_after r) /\
      risk_block_active (w_state w') = risk_block_active_after r
  | Raised => False
  end.
Proof.
  intros snap tk w.
  destruct (enforce_aggregate_risk 5 2 60 tk w) as [|w' r] eqn:E;
    [vm_compute in E; discriminate|].
  exact (status_matches_report 5 2 60 tk w w' r E).
Defined.

Lemma close_new_In ok nt ps c f :
  close_new ok nt ps = (c, f) ->
  forall x, (In x c <-> In x nt /\ In x (map p_ticket ps) /\ ok x = true) /\
            (In x f <-> In x nt /\ In x (map p_ticket ps) /\ ok x = false).
Proof.
  revert c f; induction ps as [|p ps IH]; intros c f E x; cbn in E.
  - injection E as <- <-. cbn. tauto.
  - destruct (close_new ok nt ps) as [c' f'] eqn:E'.
    destruct (IH c' f' eq_refl x) as [Hc Hf].
    destruct (memZ (p_ticket p) nt) eqn:Em; [destruct (ok (p_ticket p)) eqn:Eo|];
      injection E as <- <-; cbn; rewrite ?Hc, ?Hf;
      apply memZ_In in Em || (assert (~ In (p_ticket p) nt)
        by (intro Hn; apply memZ_In in Hn; congruence));
      split; split; intros Hx;
      repeat match goal with
      | H : _ /\ _ |- _ => destruct H
      | H : _ \/ _ |- _ => destruct H
      end; subst; repeat split; auto; congruence.
Qed.

Lemma new_tickets_facts bl ps :
  NoDup (filter (fun t => negb (memZ t bl)) (ticket_set ps)) /\
  forall x, In x (filter (fun t => negb (memZ t bl)) (ticket_set ps)) <->
            In x (map p_ticket ps) /\ ~ In x bl.
Proof.
  split; [apply NoDup_filter, NoDup_nodup|].
  intros x. rewrite filter_In, In_ticket_set. split.
  - intros [Hx Hn]. split; [exact Hx|]. intros Hb. apply memZ_In in Hb.
    rewrite Hb in Hn. discriminate.
  - intros [Hx Hn]. split; [exact Hx|].
    destruct (memZ x bl) eqn:E; [apply memZ_In in E; contradiction | reflexivity].
Qed.

(** On a violating tick (non-empty baseline, total risk above the threshold)
    the new tickets are the snapshot's tickets outside the baseline, each
    listed once; every new ticket receives a close request and is reported
    in [closed] when the close succeeds and in [failed] otherwise, and no
    other ticket is reported in either list. *)
Theorem violation_closes_new_tickets thr N bm tk w w' r snap :
  tk_snap tk = SnapOk snap ->
  baseline_tickets (w_state w) <> [] ->
  Qle_bool (total_risk_pct snap) (thr + eps) = false ->
  enforce_aggregate_risk thr N bm tk w = Returned w' r ->
  NoDup (new_tickets_detected r) /\
  (forall x, In x (new_tickets_detected r) <->
             In x (map p_ticket (positions snap)) /\ ~ In x (baseline_tickets (w_state w))) /\
  (forall x, In x (closed r) <-> In x (new_tickets_detected r) /\ tk_close_ok tk x = true) /\
  (forall x, In x (failed r) <-> In x (new_tickets_detected r) /\ tk_close_ok tk x = false).
Proof.
  intros Hs Hb Hq. unfold enforce_aggregate_risk. rewrite Hs, Hq.
  destruct w as [[bl a la rb] ks];
    cbn [w_state w_kill baseline_tickets block_attempts last_attempt_at
      risk_block_active] in Hb |- *.
  destruct bl as [|b0 bl]; [congruence|].
  generalize (close_new_In (tk_close_ok tk)
                (filter (fun t => negb (memZ t (b0 :: bl))) (ticket_set (positions snap)))
                (positions snap)).
  generalize (new_tickets_facts (b0 :: bl) (positions snap)).
  crunch; intros [Hnd Hnew] Hcl H; injection H as <- <-;
    cbn [new_tickets_detected closed failed baseline_tickets w_state];
    specialize (Hcl _ _ eq_refl);
    (split; [exact Hnd | split; [exact Hnew|]]);
    split; intros x; destruct (Hcl x) as [Hc Hf]; rewrite ?Hc, ?Hf, ?Hnew; tauto.
Qed.

Lemma violation_closes_new_tickets_witness :
  let snap := mkSnapshot 7 [mkPosition 1 "EURUSD" 0 1 (Some 0);
                            mkPosition 2 "EURUSD" 0 1 (Some 0);
                            mkPosition 3 "GBPUSD" 1 1 (Some 0)] in
  let tk := mkTick 100 (SnapOk snap) (fun t => t =? 2) false in
  let w := mkWorld (mkEnfState [1] 0 None false) None in
  match enforce_aggregate_risk 5 3 60 tk w with
  | Returned w' r =>
      NoDup (new_tickets_detected r) /\
      (forall x, In x (new_tickets_detected r) <->
                 In x (map p_ticket (positions snap)) /\ ~ In x (baseline_tickets (w_state w))) /\
      (forall x, In x (closed r) <-> In x (new_tickets_detected r) /\ tk_close_ok tk x = true) /\
      (forall x, In x (failed r) <-> In x (new_tickets_detected r) /\ tk_close_ok tk x = false)
  | Raised => False
  end.
Proof.
  intros snap tk w.
  destruct (enforce_aggregate_risk 5 3 60 tk w) as [|w' r] eqn:E;
    [vm_compute in E; discriminate|].
  exact (violation_closes_new_tickets 5 3 60 tk w w' r snap eq_refl
           ltac:(cbv; discriminate) ltac:(vm_compute; reflexivity) E).
Defined.

(** While the kill switch is active, every tick that returns persists and
    reports [risk_block_active = true], whatever branch it takes. *)
Theorem kill_active_keeps_block thr N bm tk w w' r :
  kill_active (tk_now tk) (w_kill w) = true ->
  enforce_aggregate_risk thr N bm tk w = Returned w' r ->
  risk_block_active (w_state w') = true /\ risk_block_active_after r = true.
Proof. exact (kill_active_block_persisted thr N bm tk w w' r). Qed.

Lemma kill_active_keeps_block_witness :
  let snap := mkSnapshot 1 [mkPosition 1 "EURUSD" 0 1 (Some 0)] in
  let tk := mkTick 100 (SnapOk snap) (fun _ => true) false in
  let w := mkWorld (mkEnfState [1] 3 (Some 90) true) (Some 500) in
  match enforce_aggregate_risk 5 3 60 tk w with
  | Returned w' r => risk_block_active (w_state w') = true /\ risk_block_active_after r = true
  | Raised => False
  end.
Proof.
  intros snap tk w.
  destruct (enforce_aggregate_risk 5 3 60 tk w) as [|w' r] eqn:E;
    [vm_compute in E; discriminate|].
  exact (kill_active_keeps_block 5 3 60 tk w w' r eq_refl E).
Defined.

(** A tick changes the kill-switch record only by arming it: either the
    report says nothing was armed now and the record is unchanged, or the
    switch was inactive, [attempts_after] has reached [max_block_attempts],
    the record becomes [set_kill_until(now + max(1, block_minutes) min)] and
    the block is persisted. *)
Theorem kill_record_changes_only_by_arming thr N bm tk w w' r :
  enforce_aggregate_risk thr N bm tk w = Returned w' r ->
  (kill_switch_armed_now r = false /\ w_kill w' = w_kill w) \/
  (kill_switch_armed_now r = true /\ kill_active (tk_now tk) (w_kill w) = false /\
   N <= attempts_after r /\
   w_kill w' = set_kill_until (w_kill w) (tk_now tk + block_seconds bm) /\
   risk_block_active (w_state w') = true).
Proof.
  unfold enforce_aggregate_risk.
  destruct (tk_snap tk) as [snap|]; [|discriminate].
  destruct w as [[bl a la rb] ks];
    cbn [w_state w_kill baseline_tickets block_attempts last_attempt_at
      risk_block_active].
  crunch; intro H; injection H as <- <-; cbn; zbool;
    repeat match goal with H : negb _ = true |- _ => apply negb_true_iff in H end;
    cbn [List.length] in *; rewrite ?Zpos_P_of_succ_nat, ?Nat2Z.inj_succ in *;
    first [ left; split; reflexivity
          | right; repeat split; first [assumption | lia] ].
Qed.

Lemma kill_record_changes_only_by_arming_witness :
  let snap := mkSnapshot 7 [mkPosition 1 "EURUSD" 0 1 (Some 0);
                            mkPosition 2 "EURUSD" 0 1 (Some 0)] in
  let tk := mkTick 100 (SnapOk snap) (fun _ => true) false in
  let w := mkWorld (mkEnfState [1] 0 None false) None in
  match enforce_aggregate_risk 5 1 60 tk w with
  | Returned w' r =>
      (kill_switch_armed_now r = false /\ w_kill w' = w_kill w) \/
      (kill_switch_armed_now r = true /\ kill_active (tk_now tk) (w_kill w) = false /\
       1 <= attempts_after r /\
       w_kill w' = set_kill_until (w_kill w) (tk_now tk + block_seconds 60) /\
       risk_block_active (w_state w') = true)
  | Raised => False
  end.
Proof.
  intros snap tk w.
  destruct (enforce_aggregate_risk 5 1 60 tk w) as [|w' r] eqn:E;
    [vm_compute in E; discriminate|].
  exact (kill_record_changes_only_by_arming 5 1 60 tk w w' r E).
Defined.

(** A recorded block is cleared only by the clean reset of lines 126-129:
    starting from [risk_block_active = true], a returning tick persists
    [false] exactly when the baseline is non-empty, the total risk is at or
    below the threshold and the kill switch is inactive; that tick also sets
    [attempts] to 0, clears [last_attempt_at] and leaves the kill switch
    alone. *)
Theorem block_cleared_only_by_reset thr N bm tk w w' r snap :
  risk_block_active (w_state w) = true ->
  tk_snap tk = SnapOk snap ->
  enforce_aggregate_risk thr N bm tk w = Returned w' r ->
  (risk_block_active (w_state w') = false <->
   baseline_tickets (w_state w) <> [] /\
   Qle_bool (total_risk_pct snap) (thr + eps) = true /\
   kill_active (tk_now tk) (w_kill w) = false) /\
  (risk_block_active (w_state w') = false ->
   block_attempts (w_state w') = 0 /\ last_attempt_at (w_state w') = None /\
   w_kill w' = w_kill w).
Proof.
  intros Hr Hs. unfold enforce_aggregate_risk. rewrite Hs.
  destruct w as [[bl a la rb] ks]; cbn [w_state risk_block_active] in Hr; subst rb;
    cbn [w_state w_kill baseline_tickets block_attempts last_attempt_at
      risk_block_active].
  crunch; intro H; injection H as <- <-; cbn;
    destruct (kill_active (tk_now tk) ks) eqn:Hk; cbn in *;
    (split; [split; [intros Hf | intros (Hb & Hq & Hk')] | intros Hf]);
    repeat split; try congruence.
Qed.

Lemma block_cleared_only_by_reset_witness :
  let snap := mkSnapshot 1 [mkPosition 1 "EURUSD" 0 1 (Some 0)] in
  let tk := mkTick 100 (SnapOk snap) (fun _ => true) false in
  let w := mkWorld (mkEnfState [1] 3 (Some 90) true) (Some 50) in
  match enforce_aggregate_risk 5 3 60 tk w with
  | Returned w' r =>
      (risk_block_active (w_state w') = false <->
       baseline_tickets (w_state w) <> [] /\
       Qle_bool (total_risk_pct snap) (5 + eps) = true /\
       kill_active (tk_now tk) (w_kill w) = false) /\
      (risk_block_active (w_state w') = false ->
       block_attempts (w_state w') = 0 /\ last_attempt_at (w_state w') = None /\
       w_kill w' = w_kill w)
  | Raised => False
  end.
Proof.
  intros snap tk w.
  destruct (enforce_aggregate_risk 5 3 60 tk w) as [|w' r] eqn:E;
    [vm_compute in E; discriminate|].
  exact (block_cleared_only_by_reset 5 3 60 tk w w' r snap eq_refl eq_refl E).
Defined.

(** With [max_block_attempts <= 0] (and a non-negative stored counter) every
    violating tick blocks, even one that detects no new ticket: the block is
    persisted, and when the kill switch was inactive and arming does not
    raise, the switch is armed on that tick. *)
Theorem nonpositive_max_attempts_blocks thr N bm tk w w' r snap :
  N <= 0 -> 0 <= block_attempts (w_state w) ->
  tk_snap tk = SnapOk snap ->
  baseline_tickets (w_state w) <> [] ->
  Qle_bool (total_risk_pct snap) (thr + eps) = false ->
  enforce_aggregate_risk thr N bm tk w = Returned w' r ->
  risk_block_active (w_state w') = true /\
  (kill_active (tk_now tk) (w_kill w) = false -> tk_arm_raises tk = false ->
   kill_switch_armed_now r = true).
Proof.
  intros HN Ha Hs Hb Hq. unfold enforce_aggregate_risk. rewrite Hs, Hq.
  destruct w as [[bl a la rb] ks]; cbn in Ha, Hb |- *.
  destruct bl as [|b0 bl]; [congruence|].
  crunch; intro H; injection H as <- <-; cbn; zbool;
    cbn [List.length] in *; rewrite ?Zpos_P_of_succ_nat, ?Nat2Z.inj_succ in *;
    try (exfalso; lia);
    (split; [rewrite ?orb_true_l; reflexivity | intros Hk Hr; rewrite ?Hk, ?Hr in *; cbn in *; congruence]).
Qed.

Lemma nonpositive_max_attempts_blocks_witness :
  let snap := mkSnapshot 7 [mkPosition 1 "EURUSD" 0 1 (Some 0)] in
  let tk := mkTick 100 (SnapOk snap) (fun _ => true) false in
  let w := mkWorld (mkEnfState [1] 0 None false) None in
  match enforce_aggregate_risk 5 0 60 tk w with
  | Returned w' r =>
      risk_block_active (w_state w') = true /\
      (kill_active (tk_now tk) (w_kill w) = false -> tk_arm_raises tk = false ->
       kill_switch_armed_now r = true)
  | Raised => False
  end.
Proof.
  intros snap tk w.
  destruct (enforce_aggregate_risk 5 0 60 tk w) as [|w' r] eqn:E;
    [vm_compute in E; discriminate|].
  exact (nonpositive_max_attempts_blocks 5 0 60 tk w w' r snap ltac:(lia) ltac:(cbn; lia)
           eq_refl ltac:(cbv; discriminate) ltac:(vm_compute; reflexivity) E).
Defined.

(** ** [enforce_news_window] *)

Lemma closes_of_app a b : News.closes_of (a ++ b) = News.closes_of a ++ News.closes_of b.
Proof.
  induction a as [|e a IH]; [reflexivity|].
  destruct e; cbn; rewrite ?IH; reflexivity.
Qed.

Section NewsBookkeeping.
Variables (events_df : list News.Event) (window_min now rs : Z)
          (close : Z -> News.close_outcome) (on_raises arm_raises : Z -> bool).

(** The report lists agree with the close requests issued so far; in
    [news_windows0.1.py] ([v2 = false]) a position whose [set_kill_until]
    raised has no [affected] entry. *)
Definition bookkeeping (v2 : bool) (acc : News.NAcc) : Prop :=
  map (fun a => fst (fst a)) (News.a_affected acc) =
    filter (fun t => negb (News.close_is News.CloseRaises (close t)) && (v2 || negb (arm_raises t)))
      (News.closes_of (News.a_effects acc)) /\
  News.a_closed acc =
    filter (fun t => News.close_is News.CloseOk (close t)) (News.closes_of (News.a_effects acc)) /\
  News.a_failed acc =
    filter (fun t => News.close_is News.CloseFailed (close t)) (News.closes_of (News.a_effects acc)).

Lemma news_pos_bookkeeping (v2 : bool) acc pos :
  bookkeeping v2 acc ->
  bookkeeping v2 ((if v2 then News.news_pos_v2 events_df window_min now rs close
                 else News.news_pos_v1 events_df window_min now rs close on_raises arm_raises)
                 acc pos).
Proof.
  intros (H1 & H2 & H3).
  destruct v2; [unfold News.news_pos_v2 | unfold News.news_pos_v1];
  (destruct (News.pos_matches events_df window_min now rs pos) as [|m ms];
     [exact (conj H1 (conj H2 H3))|]);
  [| destruct (on_raises (p_ticket pos)) eqn:Eon;
     [ unfold bookkeeping; cbn [News.a_affected News.a_closed News.a_failed News.a_effects];
       rewrite ?closes_of_app; cbn; rewrite ?app_nil_r; exact (conj H1 (conj H2 H3)) |] ];
  destruct (close (p_ticket pos)) eqn:Ec; cbn [negb];
  try destruct (arm_raises (p_ticket pos)) eqn:Ea;
  unfold bookkeeping; cbn [News.a_affected News.a_closed News.a_failed News.a_effects];
  rewrite ?closes_of_app, ?filter_app, ?map_app, <- ?H1, <- ?H2, <- ?H3; cbn;
  rewrite ?Ec, ?Ea; cbn; rewrite ?app_nil_r; auto.
Qed.

(** Without an affected position nothing is notified and the kill-switch
    record is unchanged; in [news_windows0.2.py] ([v2 = true]) nothing is
    armed and [kill_switch_until] stays unset. *)
Definition quiet (v2 : bool) (ks : option Z) (acc : News.NAcc) : Prop :=
  ~ In News.ENotify (News.a_effects acc) /\
  (News.a_affected acc = [] ->
   News.a_kill acc = ks /\ News.a_max_until acc = None /\
   (v2 = true -> News.a_until_field acc = None /\
                 forall u, ~ In (News.EArm u) (News.a_effects acc))).

Lemma news_pos_quiet (v2 : bool) ks acc pos :
  quiet v2 ks acc ->
  quiet v2 ks ((if v2 then News.news_pos_v2 events_df window_min now rs close
                else News.news_pos_v1 events_df window_min now rs close on_raises arm_raises)
                acc pos).
Proof.
  intros (Hn & Ha).
  destruct v2; [unfold News.news_pos_v2 | unfold News.news_pos_v1];
  (destruct (News.pos_matches events_df window_min now rs pos) as [|m ms];
     [exact (conj Hn Ha)|]);
  repeat match goal with
  | |- context [on_raises ?t] => destruct (on_raises t)
  | |- context [arm_raises ?t] => destruct (arm_raises t)
  | |- context [close ?t] => destruct (close t)
  end; cbn [negb]; unfold quiet;
  cbn [News.a_affected News.a_effects News.a_kill News.a_until_field News.a_max_until];
  (split; [intros H; repeat (apply in_app_or in H; destruct H as [H|H]);
           first [exact (Hn H) | cbn in H; intuition discriminate]|]);
  intros Hnil;
  first [ exfalso; exact (app_cons_not_nil _ _ _ (eq_sym Hnil))
        | destruct (Ha Hnil) as (Hk & Hm & Hv); split; [assumption | split; [assumption|]];
          intros Hv2; first [discriminate Hv2 |
          destruct (Hv Hv2) as (Hu & He); split; [assumption|];
          intros u H; repeat (apply in_app_or in H; destruct H as [H|H]);
          first [exact (He u H) | cbn in H; intuition discriminate] ] ].
Qed.

End NewsBookkeeping.

(** In both revisions every close request is accounted for by its result,
    in order: the [closed] list holds the closes that succeeded and [failed]
    the ones that returned a failure, so a raising close is in neither. The
    affected positions are the closes that did not raise, less, in
    [news_windows0.1.py], those whose [set_kill_until] then raised. *)
Theorem news_report_matches_closes (v2 : bool) tk events_df window_min recent_s ks :
  let o := (if v2 then News.enforce_news_window_v2 else News.enforce_news_window_v1)
             tk events_df window_min recent_s ks in
  map (fun a => fst (fst a)) (News.o_affected o) =
    filter (fun t => negb (News.close_is News.CloseRaises (News.n_close tk t)) &&
                     (v2 || negb (News.n_arm_raises tk t)))
      (News.closes_of (News.o_effects o)) /\
  News.o_closed o =
    filter (fun t => News.close_is News.CloseOk (News.n_close tk t))
      (News.closes_of (News.o_effects o)) /\
  News.o_failed o =
    filter (fun t => News.close_is News.CloseFailed (News.n_close tk t))
      (News.closes_of (News.o_effects o)).
Proof.
  intros o.
  assert (Hinv : forall b : bool, bookkeeping (News.n_close tk) (News.n_arm_raises tk) b
    (fold_left (if b then News.news_pos_v2 events_df window_min (News.n_now tk)
                            (News.recent_seconds window_min recent_s) (News.n_close tk)
                else News.news_pos_v1 events_df window_min (News.n_now tk)
                       (News.recent_seconds window_min recent_s) (News.n_close tk)
                       (News.n_on_raises tk) (News.n_arm_raises tk))
       (match News.n_snap tk with SnapOk s => positions s | SnapRaise => [] end)
       (News.acc0 ks))).
  { intros b. apply fold_left_inv; [|repeat split].
    intros acc pos _ H.
    exact (news_pos_bookkeeping events_df window_min (News.n_now tk)
             (News.recent_seconds window_min recent_s) (News.n_close tk)
             (News.n_on_raises tk) (News.n_arm_raises tk) b acc pos H). }
  subst o; destruct v2;
    [destruct (Hinv true) as (H1 & H2 & H3) | destruct (Hinv false) as (H1 & H2 & H3)];
    unfold News.enforce_news_window_v2, News.enforce_news_window_v1;
    destruct (News.n_snap tk) as [snap|]; try (repeat split; reflexivity);
    [ destruct (News.a_affected _) as [|x l]; [|destruct (News.a_max_until _)] | ];
    cbn [News.o_affected News.o_closed News.o_failed News.o_effects];
    rewrite ?closes_of_app, ?filter_app; cbn; rewrite ?app_nil_r;
    repeat split; assumption.
Qed.

(** In both revisions, a tick with no affected position (none matched, or
    every matching attempt raised) notifies nothing and leaves the
    kill-switch record unchanged; in [news_windows0.2.py] it also arms
    nothing and reports no [kill_switch_until]. *)
Theorem news_no_affected_no_arm (v2 : bool) tk events_df window_min recent_s ks :
  let o := (if v2 then News.enforce_news_window_v2 else News.enforce_news_window_v1)
             tk events_df window_min recent_s ks in
  News.o_affected o = [] ->
  News.o_kill o = ks /\ ~ In News.ENotify (News.o_effects o) /\
  (v2 = true -> News.o_kill_switch_until o = None /\
                forall u, ~ In (News.EArm u) (News.o_effects o)).
Proof.
  intros o.
  assert (Hinv : forall b : bool, quiet b ks
    (fold_left (if b then News.news_pos_v2 events_df window_min (News.n_now tk)
                            (News.recent_seconds window_min recent_s) (News.n_close tk)
                else News.news_pos_v1 events_df window_min (News.n_now tk)
                       (News.recent_seconds window_min recent_s) (News.n_close tk)
                       (News.n_on_raises tk) (News.n_arm_raises tk))
       (match News.n_snap tk with SnapOk s => positions s | SnapRaise => [] end)
       (News.acc0 ks))).
  { intros b. apply fold_left_inv.
    - intros acc pos _ H.
      exact (news_pos_quiet events_df window_min (News.n_now tk)
               (News.recent_seconds window_min recent_s) (News.n_close tk)
               (News.n_on_raises tk) (News.n_arm_raises tk) b ks acc pos H).
    - split; [intros []|]. intros _. repeat split. intros u []. }
  subst o; destruct v2; [destruct (Hinv true) as (Hn & Ha) | destruct (Hinv false) as (Hn & Ha)];
    unfold News.enforce_news_window_v2, News.enforce_news_window_v1;
    destruct (News.n_snap tk) as [snap|];
    try (cbn; intros _; repeat split; cbn; tauto).
  - destruct (News.a_affected _) as [|x l] eqn:Eaf; [|destruct (News.a_max_until _)];
      cbn [News.o_affected News.o_kill News.o_kill_switch_until News.o_effects];
      intros Hnil; try discriminate.
    destruct (Ha eq_refl) as (Hk & Hm & Hv). destruct (Hv eq_refl) as (Hu & He).
    repeat split; assumption.
  - cbn [News.o_affected News.o_kill News.o_kill_switch_until News.o_effects].
    intros Hnil. destruct (Ha Hnil) as (Hk & Hm & Hv).
    repeat split; try assumption; intros; discriminate.
Qed.

Lemma news_no_affected_no_arm_witness :
  let snap := mkSnapshot 0 [mkPosition 1 "EURGBP" 0 1 (Some 990)] in
  let tk := News.mkNTickFull 1000 (SnapOk snap) (fun _ => News.CloseOk)
              (fun _ => false) (fun _ => true) in
  let o := News.enforce_news_window_v1 tk [News.mkEvent "EUR" 1600] 60 None (Some 700) in
  News.o_closed o = [1] /\ News.o_kill_switch_until o = Some 5200 /\
  News.o_kill o = Some 700 /\ ~ In News.ENotify (News.o_effects o) /\
  (false = true -> News.o_kill_switch_until o = None /\
                   forall u, ~ In (News.EArm u) (News.o_effects o)).
Proof.
  intros snap tk o. split; [vm_compute; reflexivity|]. split; [vm_compute; reflexivity|].
  exact (news_no_affected_no_arm false tk [News.mkEvent "EUR" 1600] 60 None (Some 700)
           ltac:(vm_compute; reflexivity)).
Defined.

Lemma find_events_negative df cs now wm :
  wm < 0 -> News.find_events df cs now wm = [].
Proof.
  intros Hw. unfold News.find_events.
  induction df as [|e df IH]; [reflexivity|]. cbn.
  destruct (now - wm * 60 <=? News.ev_ts e) eqn:E1;
    destruct (News.ev_ts e <=? now + wm * 60) eqn:E2; zbool; try lia;
    rewrite ?andb_false_r; exact IH.
Qed.

Lemma fold_news_pos_idle (b : bool) events_df wm now rs close on ar ps acc :
  (forall pos, News.pos_matches events_df wm now rs pos = []) ->
  fold_left (if b then News.news_pos_v2 events_df wm now rs close
             else News.news_pos_v1 events_df wm now rs close on ar)
    ps acc = acc.
Proof.
  intros Hm. revert acc; induction ps as [|p ps IH]; intros acc; [reflexivity|].
  cbn [fold_left]. rewrite <- (IH acc) at 2. f_equal.
  destruct b; [unfold News.news_pos_v2 | unfold News.news_pos_v1]; now rewrite Hm.
Qed.

(** In both revisions a negative window ([window_min < 0]) disables the
    enforcer: [find_events] looks in an empty interval, so nothing is
    closed, affected, armed or notified, and the kill-switch record is
    unchanged. *)
Theorem negative_window_disables_news (v2 : bool) tk events_df window_min recent_s ks :
  window_min < 0 ->
  let o := (if v2 then News.enforce_news_window_v2 else News.enforce_news_window_v1)
             tk events_df window_min recent_s ks in
  News.o_effects o = [] /\ News.o_affected o = [] /\ News.o_closed o = [] /\
  News.o_failed o = [] /\ News.o_kill o = ks /\ News.o_kill_switch_until o = None.
Proof.
  intros Hw o.
  assert (Hm : forall now rs pos, News.pos_matches events_df window_min now rs pos = []).
  { intros now rs pos. unfold News.pos_matches.
    destruct (String.eqb (p_symbol pos) EmptyString); [reflexivity|].
    destruct (p_open_time pos); [|reflexivity].
    destruct (rs <? now - z); [reflexivity|]. now apply find_events_negative. }
  subst o; destruct v2;
    unfold News.enforce_news_window_v2, News.enforce_news_window_v1;
    destruct (News.n_snap tk) as [snap|]; try (repeat split; reflexivity).
  - rewrite (fold_news_pos_idle true events_df window_min (News.n_now tk) _ (News.n_close tk)
             (News.n_on_raises tk) (News.n_arm_raises tk)) by apply Hm.
    repeat split.
  - rewrite (fold_news_pos_idle false events_df window_min (News.n_now tk) _ (News.n_close tk)
             (News.n_on_raises tk) (News.n_arm_raises tk)) by apply Hm.
    repeat split.
Qed.

Lemma negative_window_disables_news_witness :
  let snap := mkSnapshot 0 [mkPosition 1 "EURGBP" 0 1 (Some 990)] in
  let tk := News.mkNTick 1000 (SnapOk snap) (fun _ => News.CloseOk) in
  let o := News.enforce_news_window_v2 tk [News.mkEvent "EUR" 1000] (-5) (Some 600) None in
  News.o_effects o = [] /\ News.o_affected o = [] /\ News.o_closed o = [] /\
  News.o_failed o = [] /\ News.o_kill o = None /\ News.o_kill_switch_until o = None.
Proof.
  intros snap tk o.
  exact (negative_window_disables_news true tk [News.mkEvent "EUR" 1000] (-5) (Some 600) None
           ltac:(lia)).
Defined.

(** [find_events] is monotone: widening the window or adding currencies
    never loses a match. *)
Theorem find_events_monotone df cs1 cs2 now w1 w2 :
  w1 <= w2 -> incl cs1 cs2 ->
  incl (News.find_events df cs1 now w1) (News.find_events df cs2 now w2).
Proof.
  intros Hw Hc e He. unfold News.find_events in *.
  apply filter_In in He as [Hin Hp]. apply filter_In. split; [exact Hin|].
  apply andb_true_iff in Hp as [Hp H2]. apply andb_true_iff in Hp as [H0 H1].
  apply existsb_exists in H0 as (c & Hc1 & Hc2).
  zbool. apply andb_true_iff; split; [apply andb_true_iff; split|].
  - apply existsb_exists. exists c. split; [now apply Hc | exact Hc2].
  - apply Z.leb_le. lia.
  - apply Z.leb_le. lia.
Qed.

Lemma find_events_monotone_witness :
  let df := [News.mkEvent "EUR" 1500; News.mkEvent "USD" 5000] in
  incl (News.find_events df ["EUR"%string] 1000 10) (News.find_events df ["EUR"%string; "USD"%string] 1000 90) /\
  News.find_events df ["EUR"%string] 1000 10 = [News.mkEvent "EUR" 1500].
Proof.
  intros df. split; [|vm_compute; reflexivity].
  apply (find_events_monotone df ["EUR"%string] ["EUR"%string; "USD"%string] 1000 10 90);
    [lia | intros c [<-|[]]; left; reflexivity].
Defined.

(** ** [map_symbol_currencies] *)

Lemma ascii_upper_idem c : News.ascii_upper (News.ascii_upper c) = News.ascii_upper c.
Proof.
  unfold News.ascii_upper.
  destruct ((97 <=? nat_of_ascii c)%nat && (nat_of_ascii c <=? 122)%nat) eqn:E.
  - apply andb_true_iff in E as [E1 E2]. apply Nat.leb_le in E1, E2.
    rewrite nat_ascii_embedding by lia.
    replace ((97 <=? nat_of_ascii c - 32)%nat) with false
      by (symmetry; apply Nat.leb_gt; lia).
    reflexivity.
  - rewrite E. reflexivity.
Qed.

Lemma str_upper_idem s : News.str_upper (News.str_upper s) = News.str_upper s.
Proof. induction s as [|c s IH]; cbn; [reflexivity | now rewrite ascii_upper_idem, IH]. Qed.

Lemma str_upper_length s : String.length (News.str_upper s) = String.length s.
Proof. induction s as [|c s IH]; cbn; [reflexivity | now rewrite IH]. Qed.

Lemma substring_upper n m s :
  substring n m (News.str_upper s) = News.str_upper (substring n m s).
Proof.
  revert n m; induction s as [|c s IH]; intros n m.
  - destruct n, m; reflexivity.
  - destruct n as [|n]; [destruct m as [|m]|]; cbn; [reflexivity | now rewrite IH | apply IH].
Qed.

Lemma substring_length_le n m s : (String.length (substring n m s) <= m)%nat.
Proof.
  revert n m; induction s as [|c s IH]; intros n m.
  - destruct n, m; cbn; lia.
  - destruct n as [|n]; [destruct m as [|m]|]; cbn; [lia | specialize (IH 0%nat m); lia | apply IH].
Qed.

(** [map_symbol_currencies] ignores the case of the symbol, and every code
    it returns is upper-case with at most three characters. *)
Theorem map_symbol_currencies_upper symbol :
  News.map_symbol_currencies (News.str_upper symbol) = News.map_symbol_currencies symbol /\
  forall c, In c (News.map_symbol_currencies symbol) ->
    News.str_upper c = c /\ (String.length c <= 3)%nat.
Proof.
  split; [unfold News.map_symbol_currencies; now rewrite str_upper_idem|].
  assert (Hsub : forall n m, News.str_upper (substring n m (News.str_upper symbol)) =
                             substring n m (News.str_upper symbol)).
  { intros n m. now rewrite <- substring_upper, str_upper_idem. }
  intros c. unfold News.map_symbol_currencies, News.last3.
  destruct (_ && _ && _).
  - intros [<-|[<-|[]]]; split; try apply Hsub; apply substring_length_le.
  - destruct (String.length (News.str_upper symbol) <? 3)%nat eqn:E; intros [<-|[]].
    + split; [apply str_upper_idem|]. apply Nat.ltb_lt in E. lia.
    + split; [apply Hsub | apply substring_length_le].
Qed.

(** ** [auto_update_calendar] *)

Lemma daemon_calendar_step_cases v2 last c :
  (Calendar.daemon_calendar_step v2 last c = (true, Some (Calendar.utc_day (Calendar.c_now c))) /\
   Calendar.weekday (Calendar.utc_day (Calendar.c_now c)) = 6 /\
   last <> Some (Calendar.utc_day (Calendar.c_now c))) \/
  Calendar.daemon_calendar_step v2 last c = (false, last).
Proof.
  unfold Calendar.daemon_calendar_step, Calendar.auto_update_calendar_v2,
    Calendar.auto_update_calendar_v1.
  destruct (Calendar.should_run last (Calendar.utc_day (Calendar.c_now c))) eqn:E;
    [|destruct v2; right; reflexivity].
  unfold Calendar.should_run in E. apply andb_true_iff in E as [E1 E2].
  apply Z.eqb_eq in E1.
  assert (Hl : last <> Some (Calendar.utc_day (Calendar.c_now c))).
  { intros ->. rewrite Z.eqb_refl in E2. discriminate. }
  destruct v2, (Calendar.c_updater_exists c), (Calendar.c_run_raises c);
    first [right; reflexivity | left; repeat split; assumption].
Qed.

Lemma calendar_runs_facts v2 cs :
  forall last,
  StronglySorted Z.le (map Calendar.c_now cs) ->
  (forall d, last = Some d -> Forall (fun c => d <= Calendar.utc_day (Calendar.c_now c)) cs) ->
  Sorted Z.lt (Calendar.calendar_runs v2 last cs) /\
  (forall d, last = Some d -> Forall (fun x => d < x) (Calendar.calendar_runs v2 last cs)) /\
  Forall (fun x => Calendar.weekday x = 6) (Calendar.calendar_runs v2 last cs).
Proof.
  induction cs as [|c cs IH]; intros last Hs Hl; [repeat split; constructor|].
  inversion Hs as [|? ? Hs' Hall]; subst.
  assert (Hday : Forall (fun c' => Calendar.utc_day (Calendar.c_now c) <=
                                   Calendar.utc_day (Calendar.c_now c')) cs).
  { apply Forall_forall. intros c' Hc'. apply Z.div_le_mono; [lia|].
    rewrite Forall_forall in Hall. apply Hall, in_map, Hc'. }
  cbn [Calendar.calendar_runs].
  destruct (daemon_calendar_step_cases v2 last c) as [(E & Hw & Hne) | E]; rewrite E.
  - destruct (IH (Some (Calendar.utc_day (Calendar.c_now c))) Hs')
      as (Hsort & Hgt & Hsun); [intros d [= <-]; exact Hday|].
    specialize (Hgt _ eq_refl). cbn [app].
    split; [|split].
    + constructor; [exact Hsort|].
      destruct (Calendar.calendar_runs v2 _ cs); constructor. now inversion Hgt.
    + intros d Hd. specialize (Hl d Hd). inversion Hl as [|? ? Hdc _]; subst.
      assert (d <> Calendar.utc_day (Calendar.c_now c)) by (intros ->; exact (Hne eq_refl)).
      constructor; [lia|].
      eapply Forall_impl; [|exact Hgt]. cbn. intros x Hx. lia.
    + constructor; assumption.
  - cbn [app]. apply IH; [exact Hs'|].
    intros d Hd. specialize (Hl d Hd). now inversion Hl.
Qed.

(** Over successive loop iterations of [run_daemon] whose clock does not go
    backwards (both revisions; an exception of the 0.1 version is caught by
    the loop's handler), the updater runs only on Sundays and at most once
    per UTC day: the days on which it ran are strictly increasing. *)
Theorem calendar_update_once_per_sunday (v2 : bool) cs :
  Sorted Z.le (map Calendar.c_now cs) ->
  Sorted Z.lt (Calendar.calendar_runs v2 None cs) /\
  Forall (fun d => Calendar.weekday d = 6) (Calendar.calendar_runs v2 None cs).
Proof.
  intros Hs.
  destruct (calendar_runs_facts v2 cs None) as (H1 & _ & H3).
  - apply Sorted_StronglySorted; [intros x y z; lia | exact Hs].
  - discriminate.
  - split; assumption.
Qed.

Lemma calendar_update_once_per_sunday_witness :
  let sun := 3 * 86400 in
  let cs := [Calendar.mkCalCall (sun + 10) true true; Calendar.mkCalCall (sun + 20) true false;
             Calendar.mkCalCall (sun + 30) true false; Calendar.mkCalCall (sun + 86400) true false;
             Calendar.mkCalCall (sun + 7 * 86400) true false] in
  Calendar.calendar_runs true None cs = [3; 10] /\
  Sorted Z.lt (Calendar.calendar_runs true None cs) /\
  Forall (fun d => Calendar.weekday d = 6) (Calendar.calendar_runs true None cs).
Proof.
  intros sun cs. split; [vm_compute; reflexivity|].
  apply (calendar_update_once_per_sunday true cs).
  vm_compute. repeat constructor; discriminate.
Defined.
